(** * blight: helpers over a bolt key/value store

    A shallow embedding of [blight.go] (and of its sibling copy, the
    variant that commits every write on its own and iterates
    sequentially) together with a model of the part of the bolt engine
    the helpers call: top-level buckets holding plain key/value pairs
    and a 64-bit sequence counter, read and write transactions with
    commit and rollback.

    Go's [string] and [[]byte] are both sequences of bytes; they are
    modelled by [string], whose characters are the 8-bit [ascii].  A
    [[]byte] result that may be [nil] is an [option string]. *)

From Stdlib Require Import ZArith NArith Ascii String List Lia.
From stdpp Require Import base option gmap strings list sorting fin_maps.

Local Open Scope string_scope.
Local Open Scope Z_scope.

(** ** Byte strings *)

Abbreviation bytes := string (only parsing).

(** [len(b)] *)
Definition len (b : bytes) : Z := Z.of_nat (String.length b).

(** [bytes.Compare]: lexicographic comparison of the unsigned bytes. *)
Fixpoint bytes_compare (a b : bytes) : comparison :=
  match a, b with
  | EmptyString, EmptyString => Eq
  | EmptyString, String _ _ => Lt
  | String _ _, EmptyString => Gt
  | String x a', String y b' =>
      match N.compare (N_of_ascii x) (N_of_ascii y) with
      | Eq => bytes_compare a' b'
      | c => c
      end
  end.

Definition bytes_lt (a b : bytes) : Prop := bytes_compare a b = Lt.
Definition bytes_le (a b : bytes) : Prop := bytes_compare a b <> Gt.

(** ** 64-bit unsigned integers *)

Definition uint64_modulus : Z := 2 ^ 64.
Definition uint64 (v : Z) : Z := v mod uint64_modulus.

(** [byte(x)]: conversion of an unsigned integer to a byte keeps the low
    eight bits. *)
Definition byte_of (x : Z) : ascii := ascii_of_N (Z.to_N (Z.land x 255)).

(** [binary.BigEndian.PutUint64(b, v)] on a fresh 8-byte slice. *)
Definition PutUint64 (v : Z) : bytes :=
  String (byte_of (Z.shiftr v 56))
  (String (byte_of (Z.shiftr v 48))
  (String (byte_of (Z.shiftr v 40))
  (String (byte_of (Z.shiftr v 32))
  (String (byte_of (Z.shiftr v 24))
  (String (byte_of (Z.shiftr v 16))
  (String (byte_of (Z.shiftr v 8))
  (String (byte_of v) EmptyString))))))).

(** [itob] returns an 8-byte big endian representation of [v]. *)
Definition itob (v : Z) : bytes := PutUint64 (uint64 v).

(** [binary.BigEndian.Uint64], the reading direction, used to state
    that [itob] loses nothing. *)
Fixpoint be_value (acc : Z) (b : bytes) : Z :=
  match b with
  | EmptyString => acc
  | String c b' => be_value (acc * 256 + Z.of_N (N_of_ascii c)) b'
  end.


(** ** The bolt engine

    The helpers reach the store only through bolt's transaction API
    ([go.etcd.io/bbolt]), which is not part of this repository.  The
    model keeps what that API lets the helpers observe and follows the
    documented behaviour of each call:

    - a database is a finite map from bucket names to buckets, a
      bucket is a finite map from keys to values with its sequence
      counter; the helpers never make a bucket inside a bucket, and
      the model has none;
    - [CreateBucketIfNotExists] "returns an error if the bucket name is
      blank"; [DeleteBucket] "returns an error if the bucket cannot be
      found" (see there for the empty name); [Put] returns an error "if the key is blank, if the key
      is too large, or if the value is too large"; [Get] "returns a nil
      value if the key does not exist"; for [Delete], "if the key does
      not exist then nothing is done and a nil error is returned";
    - a write transaction is committed when its function returns nil
      and rolled back otherwise.

    Faults of the file system and of the engine itself (a closed or
    read-only database, a failed commit) are outside the model. *)

(** Values carried by a Go [panic] in this code. *)
Inductive panic : Type :=
  | NilDereference          (* method call through a nil [*bolt.Bucket] *)
  | StaleBucket.            (* use of a bucket deleted in the transaction *)

(** Go [error] values. *)
Inductive error : Type :=
  | ErrBucketNameRequired                   (* bolt: bucket name required *)
  | ErrBucketNotFound                       (* bolt: bucket not found *)
  | ErrIncompatibleValue                    (* bolt: incompatible value *)
  | ErrKeyRequired                          (* bolt: key required *)
  | ErrKeyTooLarge                          (* bolt: key too large *)
  | ErrValueTooLarge                        (* bolt: value too large *)
  | ErrPanicked (p : panic)                 (* bolt: a batched call panicked *)
  | BucketNotFoundError (bucket : bytes)    (* fmt.Errorf("bucket %q not found", bucket) *)
  | SerializationError (msg : string).      (* an error of the json package *)

Record Bucket : Type := mkBucket {
  pairs : gmap string string;
  sequence : Z                              (* uint64 *)
}.

(** How a call ends: it returns ([Ok], or [Err] for a non-nil [error]
    with the zero value for the other results), it panics, or the
    process exits through [logrus.Fatal]. *)
Inductive Res (A : Type) : Type :=
  | Ok (a : A)
  | Err (e : error)
  | Panic (p : panic)
  | Fatal (e : error).
Arguments Ok {A} a.
Arguments Err {A} e.
Arguments Panic {A} p.
Arguments Fatal {A} e.

(** Code running against a store: inside a transaction the store is the
    transaction's working copy, outside it is the committed database. *)
Definition Tx (A : Type) : Type := gmap string Bucket -> Res A * gmap string Bucket.

Definition ret {A} (a : A) : Tx A := fun s => (Ok a, s).
Definition fail {A} (e : error) : Tx A := fun s => (Err e, s).
Definition bind {A B} (m : Tx A) (k : A -> Tx B) : Tx B :=
  fun s =>
    match m s with
    | (Ok a, s') => k a s'
    | (Err e, s') => (Err e, s')
    | (Panic p, s') => (Panic p, s')
    | (Fatal e, s') => (Fatal e, s')
    end.

(** [err := m; if err != nil { h(err) }] *)
Definition on_error {A} (m : Tx A) (h : error -> Tx A) : Tx A :=
  fun s =>
    match m s with
    | (Err e, s') => h e s'
    | r => r
    end.

Notation "'do' x <- m ; k" := (bind m (fun x => k))
  (at level 10, x name, m at level 100, k at level 200).

Module bolt.

Definition MaxKeySize : Z := 32768.
Definition MaxValueSize : Z := Z.shiftl 1 31 - 2.

(** [tx.Bucket(name)]: a pointer to the bucket, nil when there is none.
    A bucket pointer is modelled by the bucket's name. *)
Definition Tx_Bucket (name : bytes) : Tx (option bytes) :=
  fun tx =>
    match tx !! name with
    | Some _ => (Ok (Some name), tx)
    | None => (Ok None, tx)
    end.

(** [tx.CreateBucketIfNotExists(name)] *)
Definition CreateBucketIfNotExists (name : bytes) : Tx (option bytes) :=
  fun tx =>
    if len name =? 0 then (Err ErrBucketNameRequired, tx)
    else
      match tx !! name with
      | Some _ => (Ok (Some name), tx)
      | None => (Ok (Some name), <[name := mkBucket ∅ 0]> tx)
      end.

(** The transaction has no bucket at all. *)
Definition no_bucket (tx : gmap string Bucket) : bool :=
  match map_to_list tx with
  | [] => true
  | _ :: _ => false
  end.

(** [tx.DeleteBucket(name)].  The engine compares [name] with the key
    its cursor stopped at: [if !bytes.Equal(name, k) { return
    ErrBucketNotFound }], and then looks at the flags of what it found:
    [else if (flags & bucketLeafFlag) == 0 { return
    ErrIncompatibleValue }].  With no bucket in the store the cursor
    stops at nothing, [k] is nil, and [bytes.Equal] holds of the empty
    name and nil: for the empty name on a store without buckets the
    error is [ErrIncompatibleValue].  In every other case a name that
    is not a bucket's gets [ErrBucketNotFound]. *)
Definition DeleteBucket (name : bytes) : Tx unit :=
  fun tx =>
    match tx !! name with
    | Some _ => (Ok tt, delete name tx)
    | None =>
        if (len name =? 0) && no_bucket tx then (Err ErrIncompatibleValue, tx)
        else (Err ErrBucketNotFound, tx)
    end.

(** Method call through a bucket pointer. *)
Definition deref {A} (b : option bytes) (f : Bucket -> Res A * Bucket) : Tx A :=
  fun tx =>
    match b with
    | None => (Panic NilDereference, tx)
    | Some name =>
        match tx !! name with
        | None => (Panic StaleBucket, tx)
        | Some bk => let '(r, bk') := f bk in (r, <[name := bk']> tx)
        end
    end.

(** [b.Put(key, value)] *)
Definition Put (b : option bytes) (key value : bytes) : Tx unit :=
  deref b (fun bk =>
    if len key =? 0 then (Err ErrKeyRequired, bk)
    else if len key >? MaxKeySize then (Err ErrKeyTooLarge, bk)
    else if len value >? MaxValueSize then (Err ErrValueTooLarge, bk)
    else (Ok tt, mkBucket (<[key := value]> (pairs bk)) (sequence bk))).

(** [b.Get(key)]: nil when the key is not there. *)
Definition Get (b : option bytes) (key : bytes) : Tx (option bytes) :=
  deref b (fun bk => (Ok (pairs bk !! key), bk)).

(** [b.Delete(key)]: nothing is done when the key is not there. *)
Definition Delete (b : option bytes) (key : bytes) : Tx unit :=
  deref b (fun bk => (Ok tt, mkBucket (delete key (pairs bk)) (sequence bk))).

(** [b.NextSequence()]: [b.bucket.sequence++] on a [uint64]. *)
Definition NextSequence (b : option bytes) : Tx Z :=
  deref b (fun bk =>
    let id := uint64 (sequence bk + 1) in
    (Ok id, mkBucket (pairs bk) id)).

(** Order of the keys in a bucket. *)
Definition key_le (p q : bytes * bytes) : Prop := bytes_le p.1 q.1.

#[global] Instance key_le_dec : RelDecision key_le.
Proof.
  intros p q. unfold key_le, bytes_le.
  destruct (bytes_compare p.1 q.1);
    [left; discriminate | left; discriminate | right; intros H; now apply H].
Defined.

(** What a cursor walks over from [c.First()] through [c.Next()]
    until the key is nil: the pairs in ascending key order. *)
Definition items (bk : Bucket) : list (bytes * bytes) :=
  merge_sort key_le (map_to_list (pairs bk)).

(** [b.Cursor()] *)
Definition Cursor (b : option bytes) : Tx (list (bytes * bytes)) :=
  deref b (fun bk => (Ok (items bk), bk)).

(** [db.Update(fn)]: commit when [fn] returns nil, roll back
    otherwise (also when it panics: the rollback is deferred). *)
Definition Update {A} (fn : Tx A) : Tx A :=
  fun db =>
    match fn db with
    | (Ok a, tx) => (Ok a, tx)
    | (r, _) => (r, db)
    end.

(** [db.View(fn)]: the helpers only read inside it; nothing is
    committed. *)
Definition View {A} (fn : Tx A) : Tx A :=
  fun db => let '(r, _) := fn db in (r, db).

(** [safelyCall]: a panic of a batched function becomes an error. *)
Definition safelyCall {A} (fn : Tx A) : Tx A :=
  fun tx =>
    match fn tx with
    | (Panic p, tx') => (Err (ErrPanicked p), tx')
    | r => r
    end.

(** [db.Batch(fn)] with no other caller in the batch: [fn] runs under
    [safelyCall] in the batch's transaction; when it fails there the
    caller is told to run it again on its own, in [db.Update]. *)
Definition Batch {A} (fn : Tx A) : Tx A :=
  fun db =>
    match Update (safelyCall fn) db with
    | (Err _, _) => Update fn db
    | r => r
    end.

End bolt.

(** ** blight.go *)

Module blight.

(** [func Set(db, bucket, key, value []byte) error] *)
Definition Set_ (bucket key value : bytes) : Tx unit :=
  bolt.Batch (
    do bucket <- bolt.CreateBucketIfNotExists bucket;
    do _ <- bolt.Put bucket key value;
    ret tt).


(** [func Append(db, bucket, value []byte) error].  The error of
    [NextSequence] is ignored by the code; in a writable transaction
    there is none. *)
Definition Append (bucket value : bytes) : Tx unit :=
  bolt.Batch (
    do bucket <- bolt.CreateBucketIfNotExists bucket;
    do id <- bolt.NextSequence bucket;
    do _ <- bolt.Put bucket (itob id) value;
    ret tt).

(** [func Get(db, bucket, key []byte) ([]byte, error)]: the captured
    [val] is the result of the transaction function. *)
Definition Get (bucket key : bytes) : Tx (option bytes) :=
  bolt.View (
    do b <- bolt.Tx_Bucket bucket;
    match b with
    | None => fail (BucketNotFoundError bucket)
    | Some _ =>
        do val <- bolt.Get b key;
        ret val
    end).


(** [func Delete(db, bucket, key []byte) error] *)
Definition Delete (bucket key : bytes) : Tx unit :=
  bolt.Update (
    do b <- bolt.Tx_Bucket bucket;
    match b with
    | None => fail (BucketNotFoundError bucket)
    | Some _ => bolt.Delete b key
    end).



(** [func ResetBucket(db, bucket []byte) error] *)
Definition ResetBucket (bucket : bytes) : Tx unit :=
  bolt.Update (
    do _ <- bolt.DeleteBucket bucket;
    do _ <- bolt.CreateBucketIfNotExists bucket;
    ret tt).

(** [func (d DB) CreateBucket(bucket string) error] *)
Definition CreateBucket (bucket : string) : Tx unit :=
  bolt.Update (
    do _ <- bolt.CreateBucketIfNotExists bucket;
    ret tt).

(** [func (d DB) DeleteBucket(bucket string) error] *)
Definition DeleteBucket (bucket : string) : Tx unit :=
  bolt.Update (bolt.DeleteBucket bucket).



(** [func (d DB) ResetBucket(bucket string) error] *)
Definition DB_ResetBucket (bucket : string) : Tx unit :=
ResetBucket bucket.

(** *** JSON helpers

    The json package is a parameter: [Marshal] encodes a value or
    fails with a message, [Unmarshal] decodes into the caller's
    variable or fails with a message. *)
Section JSON.

Context {Value : Type}.
Variable Marshal : Value -> bytes + string.
Variable Unmarshal : bytes -> Value + string.

(** [func (d DB) SetJSON(bucket, key string, value interface{}) error] *)
Definition SetJSON (bucket key : string) (value : Value) : Tx unit :=
  match Marshal value with
  | inr msg => fail (SerializationError msg)
  | inl j => Set_ bucket key j
  end.

(** [func (d DB) AppendJSON(bucket string, value interface{}) error] *)
Definition AppendJSON (bucket : string) (value : Value) : Tx unit :=
  match Marshal value with
  | inr msg => fail (SerializationError msg)
  | inl j => Append bucket j
  end.

(** [func (d DB) GetJSON(bucket, key string, value interface{}) error]:
    the result is what the call leaves in the caller's variable.  A
    nil slice is an empty input for the decoder. *)
Definition GetJSON (bucket key : string) : Tx Value :=
  do vs <- Get bucket key;
  match Unmarshal (default "" vs) with
  | inr msg => fail (SerializationError msg)
  | inl out => ret out
  end.

(** A line written by [logrus.Info]. *)
Inductive LogEntry : Type :=
  | Info (msg : string) (r : panic).

(** [logrus.Fatal(err)]: the error is logged and the process exits. *)
Definition logrus_Fatal {A} (err : error) : Tx A :=
  fun s => (Fatal err, s).

(** [err = m] where [err] is not looked at again. *)
Definition discard_error {A} (m : Tx A) : Tx unit :=
  fun s =>
    match m s with
    | (Ok _, s') => (Ok tt, s')
    | (Err _, s') => (Ok tt, s')
    | (Panic p, s') => (Panic p, s')
    | (Fatal e, s') => (Fatal e, s')
    end.

(** [defer func() { if r := recover(); r != nil { logrus.Info(msg, r) } }()]:
    a recovered call returns the zero value, a nil error. *)
Definition recover_Info (msg : string) (m : Tx unit)
  : gmap string Bucket -> (Res unit * list LogEntry) * gmap string Bucket :=
  fun s =>
    match m s with
    | (Panic p, s') => ((Ok tt, [Info msg p]), s')
    | (r, s') => ((r, []), s')
    end.

(** [func (d DB) SetJSONBatch(bucket, key string, value interface{}) error] *)
Definition SetJSONBatch (bucket key : string) (value : Value)
  : gmap string Bucket -> (Res unit * list LogEntry) * gmap string Bucket :=
  recover_Info "Recovered in SetJSONBatch" (
    match Marshal value with
    | inr msg => fail (SerializationError msg)
    | inl j =>
        do _ <- discard_error (bolt.Batch (
                  do bkt <- bolt.Tx_Bucket bucket;
                  do _ <- on_error (bolt.Put bkt key j) logrus_Fatal;
                  ret tt));
        ret tt
    end).

End JSON.

(** *** AllFunc: callbacks on a pool of 30 goroutines

    The loop hands each pair of the cursor to a new goroutine after
    taking a token; a goroutine calls [fn], then [wg.Done()], then
    gives the token back.  After the loop the transaction function
    waits in [wg.Wait()].  The interleaving is the scheduler's
    choice, so the run is a step relation.

    Its steps are those between which another goroutine can make a
    difference to what is called and to what is waited for.  An
    iteration of the loop, [<-tokens; wg.Add(1); go func], is one step
    of the main goroutine, taken when a token is there.  A goroutine
    is followed from its start to its send on [tokens], after which it
    has nothing left to do: the goroutines of a state are those that
    have been started and still hold their token. *)

Definition pool_size : nat := 30.

(** Where a goroutine stands. *)
Inductive stage : Type :=
  | AtFn        (* about to call fn(k, v) *)
  | AtDone      (* about to call wg.Done() *)
  | AtSend.     (* about to send on tokens *)

Record pool : Type := mkPool {
  cursor : list (bytes * bytes);            (* pairs the loop has not reached *)
  tokens : nat;                             (* tokens in the channel *)
  wg : nat;                                 (* the WaitGroup counter *)
  goroutines : list ((bytes * bytes) * stage);  (* started, token not yet given back *)
  calls : list (bytes * bytes);             (* calls of fn, in the order made *)
  returned : bool                           (* wg.Wait() has returned *)
}.

Definition pool_init (c : list (bytes * bytes)) : pool :=
  mkPool c pool_size 0 [] [] false.

Inductive step : pool -> pool -> Prop :=
  | step_spawn kv c t w gs cs :
      (* <-tokens; wg.Add(1); go func(k, v) {...}(k, v) *)
      step (mkPool (kv :: c) (S t) w gs cs false)
           (mkPool c t (S w) (gs ++ [(kv, AtFn)]) cs false)
  | step_fn kv c t w g1 g2 cs r :
      (* fn(k, v) *)
      step (mkPool c t w (g1 ++ (kv, AtFn) :: g2) cs r)
           (mkPool c t w (g1 ++ (kv, AtDone) :: g2) (cs ++ [kv]) r)
  | step_done kv c t w g1 g2 cs r :
      (* wg.Done() *)
      step (mkPool c t (S w) (g1 ++ (kv, AtDone) :: g2) cs r)
           (mkPool c t w (g1 ++ (kv, AtSend) :: g2) cs r)
  | step_send kv c t w g1 g2 cs r :
      (* tokens <- struct{}{}: blocks while the channel is full *)
      (t < pool_size)%nat ->
      step (mkPool c t w (g1 ++ (kv, AtSend) :: g2) cs r)
           (mkPool c (S t) w (g1 ++ g2) cs r)
  | step_wait t gs cs :
      (* wg.Wait() returns when the counter is zero *)
      step (mkPool [] t 0 gs cs false)
           (mkPool [] t 0 gs cs true).

(** A run of the transaction function on a bucket's pairs, up to the
    return of [wg.Wait()]. *)
Definition pool_run (c : list (bytes * bytes)) (p : pool) : Prop :=
  rtc step (pool_init c) p /\ returned p = true.

(** [func (d DB) AllFunc(bucket string, fn func(k, v []byte)) error]:
    the result, the database, and the calls of [fn] that were made. *)
Inductive AllFunc (bucket : string) (db : gmap string Bucket)
  : Res unit * gmap string Bucket -> list (bytes * bytes) -> Prop :=
  | AllFunc_not_found :
      db !! bucket = None ->
      AllFunc bucket db (Err (BucketNotFoundError bucket), db) []
  | AllFunc_nil bk p :
      db !! bucket = Some bk ->
      pool_run (bolt.items bk) p ->
      AllFunc bucket db (Ok tt, db) (calls p).

End blight.

(** ** The sibling copy: every write in its own [db.Update], callbacks
    called one after the other *)

Module part_000.

(** [func Set(db, bucket, key, value []byte) error] *)
Definition Set_ (bucket key value : bytes) : Tx unit :=
  bolt.Update (
    do bucket <- bolt.CreateBucketIfNotExists bucket;
    do _ <- bolt.Put bucket key value;
    ret tt).

(** [func Append(db, bucket, value []byte) error] *)
Definition Append (bucket value : bytes) : Tx unit :=
  bolt.Update (
    do bucket <- bolt.CreateBucketIfNotExists bucket;
    do id <- bolt.NextSequence bucket;
    do _ <- bolt.Put bucket (itob id) value;
    ret tt).

(** [for k, v := c.First(); k != nil; k, v = c.Next() { fn(k, v) }]:
    [fn] acts on the state [S] of its caller. *)
Fixpoint cursor_for {S} (c : list (bytes * bytes))
    (fn : bytes -> bytes -> S -> S) (s : S) : S :=
  match c with
  | [] => s
  | (k, v) :: c' => cursor_for c' fn (fn k v s)
  end.

(** [func (d DB) AllFunc(bucket string, fn func(k, v []byte)) error]:
    the result carries the caller's state after the calls of [fn]. *)
Definition AllFunc {S} (bucket : string) (fn : bytes -> bytes -> S -> S) (s : S)
  : Tx S :=
  bolt.View (
    do b <- bolt.Tx_Bucket bucket;
    match b with
    | None => fail (BucketNotFoundError bucket)
    | Some _ =>
        do c <- bolt.Cursor b;
        ret (cursor_for c fn s)
    end).

(** The callback that records its calls. *)
Definition record_call (k v : bytes) (t : list (bytes * bytes)) : list (bytes * bytes) :=
  t ++ [(k, v)].

End part_000.

(** ** Vocabulary of the statements *)

(** A bucket as [CreateBucketIfNotExists] makes it. *)
Definition new_bucket : Bucket := mkBucket ∅ 0.

(** The bucket a write finds after [CreateBucketIfNotExists]. *)
Definition bucket_of (db : gmap string Bucket) (B : bytes) : Bucket :=
  default new_bucket (db !! B).

(** The value stored under key [K] of bucket [B], if both exist. *)
Definition value_at (db : gmap string Bucket) (B K : bytes) : option bytes :=
  match db !! B with
  | Some b => pairs b !! K
  | None => None
  end.

(** The error with which [Put] refuses its arguments, if it does. *)
Definition put_error (K V : bytes) : option error :=
  if len K =? 0 then Some ErrKeyRequired
  else if len K >? bolt.MaxKeySize then Some ErrKeyTooLarge
  else if len V >? bolt.MaxValueSize then Some ErrValueTooLarge
  else None.

(** The bucket after a successful [Put]. *)
Definition put_pair (K V : bytes) (b : Bucket) : Bucket :=
  mkBucket (<[K := V]> (pairs b)) (sequence b).

(** The bucket after a successful [Append]: the sequence moves by one
    and the value goes under the key made from it. *)
Definition append_pair (V : bytes) (b : Bucket) : Bucket :=
  let id := uint64 (sequence b + 1) in
  mkBucket (<[itob id := V]> (pairs b)) id.

(** Successive appends to one bucket, with the key each call used. *)
Fixpoint appends (B : bytes) (Vs : list bytes) (db : gmap string Bucket)
  : list bytes * gmap string Bucket :=
  match Vs with
  | [] => ([], db)
  | V :: Vs' =>
      let db1 := (blight.Append B V db).2 in
      let '(ks, db') := appends B Vs' db1 in
      (itob (sequence (bucket_of db1 B)) :: ks, db')
  end.

(** A codec for the statements about JSON: booleans, as JSON writes
    them. *)
Definition bool_Marshal (b : bool) : bytes + string :=
  inl (if b then "true" else "false").
Definition bool_Unmarshal (j : bytes) : bool + string :=
  if String.eqb j "true" then inl true
  else if String.eqb j "false" then inl false
  else inr "invalid character".

(** The pairs held by goroutines that have not called [fn] yet. *)
Fixpoint waiting (gs : list ((bytes * bytes) * blight.stage)) : list (bytes * bytes) :=
  match gs with
  | [] => []
  | (kv, blight.AtFn) :: gs' => kv :: waiting gs'
  | _ :: gs' => waiting gs'
  end.

(** The number of goroutines that have not called [wg.Done()] yet. *)
Fixpoint undone (gs : list ((bytes * bytes) * blight.stage)) : nat :=
  match gs with
  | [] => 0
  | (_, blight.AtSend) :: gs' => undone gs'
  | _ :: gs' => S (undone gs')
  end.

(** What holds of the pool all along a run over the pairs [c]. *)
Definition pool_inv (c : list (bytes * bytes)) (p : blight.pool) : Prop :=
  blight.calls p ++ waiting (blight.goroutines p) ++ blight.cursor p ≡ₚ c /\
  blight.wg p = undone (blight.goroutines p) /\
  (blight.tokens p + length (blight.goroutines p) = blight.pool_size)%nat /\
  (blight.returned p = true -> blight.cursor p = [] /\ blight.wg p = 0%nat).

(** The number of steps a pool has left at most. *)
Definition stage_weight (s : blight.stage) : nat :=
  match s with
  | blight.AtFn => 3
  | blight.AtDone => 2
  | blight.AtSend => 1
  end.

Definition pool_measure (p : blight.pool) : nat :=
  4 * length (blight.cursor p)
  + sum_list_with (fun g => stage_weight g.2) (blight.goroutines p)
  + (if blight.returned p then 0 else 1).

(** A bucket as the helpers can leave it: the sequence is a [uint64],
    no key is empty, and keys and values are within the sizes [Put]
    accepts. *)
Definition wf_bucket (b : Bucket) : Prop :=
  0 <= sequence b < uint64_modulus /\
  forall k v, pairs b !! k = Some v ->
    k <> "" /\ len k <= bolt.MaxKeySize /\ len v <= bolt.MaxValueSize.

(** A store as the helpers can leave it: no bucket has the empty name
    and every bucket is as above. *)
Definition wf_store (db : gmap string Bucket) : Prop :=
  forall B b, db !! B = Some b -> B <> "" /\ wf_bucket b.


(** The pool can take no step. *)
Definition pool_quiescent (p : blight.pool) : Prop :=
  forall p', ~ blight.step p p'.
(** ** Byte order facts *)

Section BytesOrder.

Lemma bytes_compare_refl a : bytes_compare a a = Eq.
Proof.
  induction a as [|c a IH]; simpl; [reflexivity|].
  rewrite N.compare_refl. exact IH.
Qed.

Lemma bytes_compare_eq a b : bytes_compare a b = Eq -> a = b.
Proof.
  revert b. induction a as [|x a IH]; intros [|y b]; simpl; try discriminate.
  - reflexivity.
  - destruct (N.compare_spec (N_of_ascii x) (N_of_ascii y)) as [E|E|E];
      try discriminate.
    intros H. apply IH in H. subst b.
    f_equal. rewrite <- (ascii_N_embedding x), <- (ascii_N_embedding y).
    now rewrite E.
Qed.

Lemma bytes_compare_antisym a b :
  bytes_compare a b = CompOpp (bytes_compare b a).
Proof.
  revert b. induction a as [|x a IH]; intros [|y b]; simpl; try reflexivity.
  rewrite (N.compare_antisym (N_of_ascii x) (N_of_ascii y)).
  destruct (N.compare (N_of_ascii x) (N_of_ascii y)); simpl; auto.
Qed.

Lemma bytes_lt_trans a b c : bytes_lt a b -> bytes_lt b c -> bytes_lt a c.
Proof.
  unfold bytes_lt. revert b c.
  induction a as [|x a IH]; intros [|y b] [|z c]; simpl; try discriminate; auto.
  destruct (N.compare_spec (N_of_ascii x) (N_of_ascii y)) as [E1|E1|E1];
    try discriminate;
    destruct (N.compare_spec (N_of_ascii y) (N_of_ascii z)) as [E2|E2|E2];
    try discriminate; intros H1 H2.
  - rewrite E1, E2, N.compare_refl. eauto.
  - rewrite E1. now apply N.compare_lt_iff in E2 as ->.
  - rewrite <- E2. now apply N.compare_lt_iff in E1 as ->.
  - assert (N_of_ascii x < N_of_ascii z)%N as E by lia.
    now apply N.compare_lt_iff in E as ->.
Qed.

Lemma bytes_lt_irrefl a : ~ bytes_lt a a.
Proof. unfold bytes_lt. rewrite bytes_compare_refl. discriminate. Qed.

Lemma bytes_le_lt_or_eq a b : bytes_le a b <-> bytes_lt a b \/ a = b.
Proof.
  unfold bytes_le, bytes_lt. split.
  - destruct (bytes_compare a b) eqn:E; intros H.
    + right. now apply bytes_compare_eq.
    + now left.
    + now destruct H.
  - intros [->| ->]; [discriminate|].
    rewrite bytes_compare_refl. discriminate.
Qed.

End BytesOrder.

(** ** Big-endian encoding facts *)

Section BigEndian.

Lemma byte_of_value x : Z.of_N (N_of_ascii (byte_of x)) = x mod 256.
Proof.
  unfold byte_of.
  assert (Z.land x 255 = x mod 256) as ->
    by (change 255 with (Z.ones 8); now rewrite Z.land_ones).
  pose proof (Z.mod_pos_bound x 256 eq_refl) as Hb.
  rewrite N_ascii_embedding by lia. lia.
Qed.

Lemma be_value_acc acc b :
  be_value acc b = acc * 256 ^ len b + be_value 0 b.
Proof.
  unfold len. revert acc. induction b as [|c b IH]; intros acc.
  - simpl. lia.
  - cbn [be_value String.length]. rewrite IH, (IH (0 * 256 + _)).
    rewrite Nat2Z.inj_succ, Z.pow_succ_r by lia. lia.
Qed.

Lemma be_value_bound b : 0 <= be_value 0 b < 256 ^ len b.
Proof.
  unfold len. induction b as [|c b IH].
  - simpl. lia.
  - cbn [be_value String.length]. rewrite be_value_acc. unfold len.
    rewrite Nat2Z.inj_succ, Z.pow_succ_r by lia.
    pose proof (N_ascii_bounded c). nia.
Qed.

(** On slices of one length, [bytes.Compare] is the comparison of the
    big-endian values. *)
Lemma bytes_compare_be_value a b :
  String.length a = String.length b ->
  bytes_compare a b = Z.compare (be_value 0 a) (be_value 0 b).
Proof.
  revert b. induction a as [|x a IH]; intros [|y b] Hl; try discriminate.
  - reflexivity.
  - injection Hl as Hl. cbn [bytes_compare be_value].
    rewrite (be_value_acc _ a), (be_value_acc _ b), (IH b Hl).
    unfold len. rewrite Hl.
    pose proof (be_value_bound a) as Ha. pose proof (be_value_bound b) as Hb.
    unfold len in Ha, Hb. rewrite Hl in Ha.
    set (p := 256 ^ Z.of_nat (String.length b)) in *.
    set (va := be_value 0 a) in *. set (vb := be_value 0 b) in *.
    pose proof (N_ascii_bounded x). pose proof (N_ascii_bounded y).
    destruct (N.compare_spec (N_of_ascii x) (N_of_ascii y)) as [E|E|E].
    + rewrite E. destruct (Z.compare_spec va vb); symmetry;
        [apply Z.compare_eq_iff|apply Z.compare_lt_iff|apply Z.compare_gt_iff]; lia.
    + symmetry. apply Z.compare_lt_iff. nia.
    + symmetry. apply Z.compare_gt_iff. nia.
Qed.

Lemma PutUint64_length v : String.length (PutUint64 v) = 8%nat.
Proof. reflexivity. Qed.

Lemma itob_length v : String.length (itob v) = 8%nat.
Proof. reflexivity. Qed.

Lemma be_value_PutUint64 v :
  0 <= v < uint64_modulus -> be_value 0 (PutUint64 v) = v.
Proof.
  unfold uint64_modulus. intros Hv.
  unfold PutUint64. cbn [be_value].
  rewrite !byte_of_value, !Z.shiftr_div_pow2 by lia.
  change (2 ^ 56) with (256 * 2 ^ 48). change (2 ^ 48) with (256 * 2 ^ 40).
  change (2 ^ 40) with (256 * 2 ^ 32). change (2 ^ 32) with (256 * 2 ^ 24).
  change (2 ^ 24) with (256 * 2 ^ 16). change (2 ^ 16) with (256 * 2 ^ 8).
  change (2 ^ 8) with 256.
  Z.div_mod_to_equations. lia.
Qed.

(** [itob] followed by the big-endian reading is reduction modulo 2^64. *)
Lemma be_value_itob v : be_value 0 (itob v) = uint64 v.
Proof.
  unfold itob. apply be_value_PutUint64.
  unfold uint64. apply Z.mod_pos_bound. reflexivity.
Qed.

Lemma bytes_compare_itob a b :
  bytes_compare (itob a) (itob b) = Z.compare (uint64 a) (uint64 b).
Proof.
  rewrite bytes_compare_be_value by reflexivity.
  now rewrite !be_value_itob.
Qed.

Lemma itob_lt a b : bytes_lt (itob a) (itob b) <-> uint64 a < uint64 b.
Proof. unfold bytes_lt. rewrite bytes_compare_itob. apply Z.compare_lt_iff. Qed.

Lemma itob_inj a b : itob a = itob b -> uint64 a = uint64 b.
Proof. intros H. rewrite <- !be_value_itob. now rewrite H. Qed.

End BigEndian.

(** ** The engine's transactions *)

Section Transactions.

Context {A : Type}.
Implicit Types (fn : Tx A) (db : gmap string Bucket).

(** Alone in its batch, a batched function does what it does in
    [db.Update]. *)
Lemma Batch_Update fn db : bolt.Batch fn db = bolt.Update fn db.
Proof.
  unfold bolt.Batch, bolt.Update, bolt.safelyCall.
  destruct (fn db) as [[a|e|p|e] tx]; reflexivity.
Qed.

Lemma Update_Ok fn db a tx : fn db = (Ok a, tx) -> bolt.Update fn db = (Ok a, tx).
Proof. unfold bolt.Update. now intros ->. Qed.

Lemma Update_Err fn db e tx : fn db = (Err e, tx) -> bolt.Update fn db = (Err e, db).
Proof. unfold bolt.Update. now intros ->. Qed.

Lemma View_db fn db : (bolt.View fn db).2 = db.
Proof. unfold bolt.View. now destruct (fn db). Qed.

End Transactions.

Lemma Update_Ok_or_unchanged {A} (fn : Tx A) (db : gmap string Bucket) :
  (exists a, (bolt.Update fn db).1 = Ok a) \/ (bolt.Update fn db).2 = db.
Proof.
  unfold bolt.Update. destruct (fn db) as [[a|e|p|e] tx]; eauto.
Qed.

Lemma Update_failed (fn : Tx unit) (db : gmap string Bucket) :
  (bolt.Update fn db).1 <> Ok tt -> (bolt.Update fn db).2 = db.
Proof.
  intros H. destruct (Update_Ok_or_unchanged fn db) as [[[] E]|E]; [|exact E].
  now destruct H.
Qed.

Lemma Batch_failed (fn : Tx unit) (db : gmap string Bucket) :
  (bolt.Batch fn db).1 <> Ok tt -> (bolt.Batch fn db).2 = db.
Proof. rewrite Batch_Update. apply Update_failed. Qed.

Lemma len_0 (s : string) : (len s =? 0) = true <-> s = "".
Proof.
  unfold len. rewrite Z.eqb_eq. destruct s; simpl; split; intros H;
    try reflexivity; try discriminate; lia.
Qed.

Lemma len_not_0 (s : string) : s <> "" -> (len s =? 0) = false.
Proof. intros H. apply not_true_is_false. now rewrite len_0. Qed.

Lemma put_error_None K V :
  K <> "" -> len K <= bolt.MaxKeySize -> len V <= bolt.MaxValueSize ->
  put_error K V = None.
Proof.
  intros HK Hk Hv. unfold put_error. rewrite (len_not_0 K HK).
  destruct (Z.gtb_spec (len K) bolt.MaxKeySize); [lia|].
  destruct (Z.gtb_spec (len V) bolt.MaxValueSize); [lia|]. reflexivity.
Qed.

Lemma put_error_itob id V :
  put_error (itob id) V = if len V >? bolt.MaxValueSize then Some ErrValueTooLarge else None.
Proof. reflexivity. Qed.

(** ** Sequencing *)

Section Bind.

Context {A B : Type}.
Implicit Types (m : Tx A) (k : A -> Tx B).

Lemma bind_Ok m k s a s' : m s = (Ok a, s') -> bind m k s = k a s'.
Proof. unfold bind. now intros ->. Qed.

Lemma bind_Err m k s e s' : m s = (Err e, s') -> bind m k s = (Err e, s').
Proof. unfold bind. now intros ->. Qed.

Lemma bind_Panic m k s p s' : m s = (Panic p, s') -> bind m k s = (Panic p, s').
Proof. unfold bind. now intros ->. Qed.

Lemma bind_Fatal m k s e s' : m s = (Fatal e, s') -> bind m k s = (Fatal e, s').
Proof. unfold bind. now intros ->. Qed.

End Bind.

(** ** The engine's operations *)

Section Engine.

Implicit Types (db : gmap string Bucket) (B K V : string) (b : Bucket).

Lemma insert_bucket_of db B b : db !! B = Some b -> <[B := bucket_of db B]> db = db.
Proof. intros Hb. apply insert_id. unfold bucket_of. now rewrite Hb. Qed.

Lemma Tx_Bucket_Some db B b : db !! B = Some b -> bolt.Tx_Bucket B db = (Ok (Some B), db).
Proof. unfold bolt.Tx_Bucket. now intros ->. Qed.

Lemma Tx_Bucket_None db B : db !! B = None -> bolt.Tx_Bucket B db = (Ok None, db).
Proof. unfold bolt.Tx_Bucket. now intros ->. Qed.


Lemma CreateBucketIfNotExists_run db B :
  B <> "" ->
  bolt.CreateBucketIfNotExists B db = (Ok (Some B), <[B := bucket_of db B]> db).
Proof.
  intros HB. unfold bolt.CreateBucketIfNotExists, bucket_of.
  rewrite (len_not_0 B HB).
  destruct (db !! B) as [b|] eqn:Hb; simpl; [|reflexivity].
  now rewrite insert_id.
Qed.

Lemma DeleteBucket_Some db B b :
  db !! B = Some b -> bolt.DeleteBucket B db = (Ok tt, delete B db).
Proof. unfold bolt.DeleteBucket. now intros ->. Qed.

Lemma no_bucket_empty db : bolt.no_bucket db = true <-> db = ∅.
Proof.
  unfold bolt.no_bucket. rewrite <- map_to_list_empty_iff.
  destruct (map_to_list db); split; try reflexivity; discriminate.
Qed.

Lemma DeleteBucket_None db B :
  db !! B = None -> B <> "" \/ db <> ∅ ->
  bolt.DeleteBucket B db = (Err ErrBucketNotFound, db).
Proof.
  unfold bolt.DeleteBucket. intros -> [HB|Hdb].
  - now rewrite (len_not_0 B HB).
  - destruct (bolt.no_bucket db) eqn:E; [now apply no_bucket_empty in E|].
    now rewrite andb_false_r.
Qed.

Lemma DeleteBucket_blank_empty :
  bolt.DeleteBucket "" ∅ = (Err ErrIncompatibleValue, ∅).
Proof. reflexivity. Qed.

Lemma DeleteBucket_absent db B :
  db !! B = None -> exists e, bolt.DeleteBucket B db = (Err e, db).
Proof.
  unfold bolt.DeleteBucket. intros ->.
  destruct ((len B =? 0) && bolt.no_bucket db); eauto.
Qed.

Lemma Put_Ok db B K V b :
  db !! B = Some b -> put_error K V = None ->
  bolt.Put (Some B) K V db = (Ok tt, <[B := put_pair K V b]> db).
Proof.
  intros Hb. unfold bolt.Put, bolt.deref, put_error. rewrite Hb.
  destruct (len K =? 0); [discriminate|].
  destruct (len K >? bolt.MaxKeySize); [discriminate|].
  destruct (len V >? bolt.MaxValueSize); [discriminate|]. reflexivity.
Qed.

Lemma Put_Err db B K V b e :
  db !! B = Some b -> put_error K V = Some e ->
  bolt.Put (Some B) K V db = (Err e, db).
Proof.
  intros Hb. unfold bolt.Put, bolt.deref, put_error. rewrite Hb.
  destruct (len K =? 0); [intros [= <-]; now rewrite insert_id|].
  destruct (len K >? bolt.MaxKeySize); [intros [= <-]; now rewrite insert_id|].
  destruct (len V >? bolt.MaxValueSize); [intros [= <-]; now rewrite insert_id|].
  discriminate.
Qed.

Lemma Put_nil db K V : bolt.Put None K V db = (Panic NilDereference, db).
Proof. reflexivity. Qed.

Lemma Get_Some db B K b :
  db !! B = Some b -> bolt.Get (Some B) K db = (Ok (pairs b !! K), db).
Proof.
  intros Hb. unfold bolt.Get, bolt.deref. rewrite Hb. now rewrite insert_id.
Qed.

Lemma Delete_Some db B K b :
  db !! B = Some b ->
  bolt.Delete (Some B) K db =
    (Ok tt, <[B := mkBucket (delete K (pairs b)) (sequence b)]> db).
Proof. intros Hb. unfold bolt.Delete, bolt.deref. now rewrite Hb. Qed.

Lemma NextSequence_Some db B b :
  db !! B = Some b ->
  bolt.NextSequence (Some B) db =
    (Ok (uint64 (sequence b + 1)),
     <[B := mkBucket (pairs b) (uint64 (sequence b + 1))]> db).
Proof. intros Hb. unfold bolt.NextSequence, bolt.deref. now rewrite Hb. Qed.

Lemma Cursor_Some db B b :
  db !! B = Some b -> bolt.Cursor (Some B) db = (Ok (bolt.items b), db).
Proof.
  intros Hb. unfold bolt.Cursor, bolt.deref. rewrite Hb. now rewrite insert_id.
Qed.

End Engine.

(** ** What each helper computes *)

Section Runs.

Implicit Types (db : gmap string Bucket) (B K V : string) (b : Bucket).

Lemma Set_Update_blank K V db :
  part_000.Set_ "" K V db = (Err ErrBucketNameRequired, db).
Proof. reflexivity. Qed.

Lemma Set_Update_Err B K V db e :
  B <> "" -> put_error K V = Some e -> part_000.Set_ B K V db = (Err e, db).
Proof.
  intros HB He. unfold part_000.Set_. eapply Update_Err.
  erewrite bind_Ok by now apply CreateBucketIfNotExists_run.
  eapply bind_Err, Put_Err; [apply lookup_insert_eq | exact He].
Qed.

Lemma Set_Update_Ok B K V db :
  B <> "" -> put_error K V = None ->
  part_000.Set_ B K V db = (Ok tt, <[B := put_pair K V (bucket_of db B)]> db).
Proof.
  intros HB He. unfold part_000.Set_. eapply Update_Ok.
  erewrite bind_Ok by now apply CreateBucketIfNotExists_run.
  erewrite bind_Ok by (apply Put_Ok; [apply lookup_insert_eq | exact He]).
  unfold ret. now rewrite insert_insert_eq.
Qed.

Lemma Set_same B K V db : blight.Set_ B K V db = part_000.Set_ B K V db.
Proof. apply Batch_Update. Qed.

Lemma Set_blank K V db : blight.Set_ "" K V db = (Err ErrBucketNameRequired, db).
Proof. reflexivity. Qed.

Lemma Set_Err B K V db e :
  B <> "" -> put_error K V = Some e -> blight.Set_ B K V db = (Err e, db).
Proof. rewrite Set_same. apply Set_Update_Err. Qed.

Lemma Set_Ok B K V db :
  B <> "" -> put_error K V = None ->
  blight.Set_ B K V db = (Ok tt, <[B := put_pair K V (bucket_of db B)]> db).
Proof. rewrite Set_same. apply Set_Update_Ok. Qed.

Lemma Get_not_found B K db :
  db !! B = None -> blight.Get B K db = (Err (BucketNotFoundError B), db).
Proof.
  intros Hb. unfold blight.Get, bolt.View.
  erewrite bind_Ok by now apply Tx_Bucket_None. reflexivity.
Qed.

Lemma Get_found B K db b :
  db !! B = Some b -> blight.Get B K db = (Ok (pairs b !! K), db).
Proof.
  intros Hb. unfold blight.Get, bolt.View.
  erewrite bind_Ok by (eapply Tx_Bucket_Some, Hb). cbv beta iota.
  erewrite bind_Ok by (eapply Get_Some, Hb). reflexivity.
Qed.

Lemma Append_Update_Ok B V db :
  B <> "" -> len V <= bolt.MaxValueSize ->
  part_000.Append B V db = (Ok tt, <[B := append_pair V (bucket_of db B)]> db).
Proof.
  intros HB HV. unfold part_000.Append. eapply Update_Ok.
  erewrite bind_Ok by now apply CreateBucketIfNotExists_run.
  erewrite bind_Ok by (apply NextSequence_Some, lookup_insert_eq).
  erewrite bind_Ok.
  2:{ apply Put_Ok; [apply lookup_insert_eq|].
      rewrite put_error_itob.
      destruct (Z.gtb_spec (len V) bolt.MaxValueSize); [lia|reflexivity]. }
  unfold ret. now rewrite !insert_insert_eq.
Qed.

Lemma Append_Update_Err B V db :
  B <> "" -> bolt.MaxValueSize < len V ->
  part_000.Append B V db = (Err ErrValueTooLarge, db).
Proof.
  intros HB HV. unfold part_000.Append. eapply Update_Err.
  erewrite bind_Ok by now apply CreateBucketIfNotExists_run.
  erewrite bind_Ok by (apply NextSequence_Some, lookup_insert_eq).
  eapply bind_Err, Put_Err; [apply lookup_insert_eq|].
  rewrite put_error_itob.
  destruct (Z.gtb_spec (len V) bolt.MaxValueSize); [reflexivity|lia].
Qed.

Lemma Append_same B V db : blight.Append B V db = part_000.Append B V db.
Proof. apply Batch_Update. Qed.

Lemma Append_blank V db : blight.Append "" V db = (Err ErrBucketNameRequired, db).
Proof. reflexivity. Qed.

Lemma Append_Ok B V db :
  B <> "" -> len V <= bolt.MaxValueSize ->
  blight.Append B V db = (Ok tt, <[B := append_pair V (bucket_of db B)]> db).
Proof. rewrite Append_same. apply Append_Update_Ok. Qed.

Lemma Append_Err B V db :
  B <> "" -> bolt.MaxValueSize < len V ->
  blight.Append B V db = (Err ErrValueTooLarge, db).
Proof. rewrite Append_same. apply Append_Update_Err. Qed.

Lemma Delete_not_found B K db :
  db !! B = None -> blight.Delete B K db = (Err (BucketNotFoundError B), db).
Proof.
  intros Hb. unfold blight.Delete. eapply Update_Err.
  erewrite bind_Ok by now apply Tx_Bucket_None. reflexivity.
Qed.

Lemma Delete_found B K db b :
  db !! B = Some b ->
  blight.Delete B K db =
    (Ok tt, <[B := mkBucket (delete K (pairs b)) (sequence b)]> db).
Proof.
  intros Hb. unfold blight.Delete. eapply Update_Ok.
  erewrite bind_Ok by (eapply Tx_Bucket_Some, Hb). cbv beta iota.
  now apply Delete_Some.
Qed.



Lemma ResetBucket_absent B db :
  db !! B = None -> exists e, blight.ResetBucket B db = (Err e, db).
Proof.
  intros Hb. destruct (DeleteBucket_absent db B Hb) as [e He].
  exists e. unfold blight.ResetBucket. eapply Update_Err.
  eapply bind_Err, He.
Qed.

Lemma ResetBucket_found B db b :
  B <> "" -> db !! B = Some b ->
  blight.ResetBucket B db = (Ok tt, <[B := new_bucket]> db).
Proof.
  intros HB Hb. unfold blight.ResetBucket. eapply Update_Ok.
  erewrite bind_Ok by (eapply DeleteBucket_Some, Hb).
  erewrite bind_Ok by now apply CreateBucketIfNotExists_run.
  unfold ret, bucket_of. rewrite lookup_delete_eq. simpl.
  now rewrite insert_delete_eq.
Qed.

Lemma CreateBucket_blank db :
  blight.CreateBucket "" db = (Err ErrBucketNameRequired, db).
Proof. reflexivity. Qed.

Lemma CreateBucket_run B db :
  B <> "" -> blight.CreateBucket B db = (Ok tt, <[B := bucket_of db B]> db).
Proof.
  intros HB. unfold blight.CreateBucket. eapply Update_Ok.
  erewrite bind_Ok by now apply CreateBucketIfNotExists_run. reflexivity.
Qed.

Lemma DeleteBucket_found B db b :
  db !! B = Some b -> blight.DeleteBucket B db = (Ok tt, delete B db).
Proof.
  intros Hb. unfold blight.DeleteBucket. eapply Update_Ok.
  eapply DeleteBucket_Some, Hb.
Qed.

Lemma DeleteBucket_not_found B db :
  db !! B = None -> B <> "" \/ db <> ∅ ->
  blight.DeleteBucket B db = (Err ErrBucketNotFound, db).
Proof.
  intros Hb Hne. unfold blight.DeleteBucket. eapply Update_Err.
  now apply DeleteBucket_None.
Qed.

Lemma DeleteBucket_blank_empty_store :
  blight.DeleteBucket "" ∅ = (Err ErrIncompatibleValue, ∅).
Proof. reflexivity. Qed.

Lemma DeleteBucket_absent_unchanged B db :
  db !! B = None -> exists e, blight.DeleteBucket B db = (Err e, db).
Proof.
  intros Hb. destruct (DeleteBucket_absent db B Hb) as [e He].
  exists e. unfold blight.DeleteBucket. eapply Update_Err, He.
Qed.

Lemma bucket_of_insert db B b : bucket_of (<[B := b]> db) B = b.
Proof. unfold bucket_of. now rewrite lookup_insert_eq. Qed.

Lemma value_at_insert db B b K : value_at (<[B := b]> db) B K = pairs b !! K.
Proof. unfold value_at. now rewrite lookup_insert_eq. Qed.

Lemma value_at_insert_ne db B B' b K :
  B <> B' -> value_at (<[B := b]> db) B' K = value_at db B' K.
Proof. intros HB. unfold value_at. now rewrite lookup_insert_ne. Qed.

Lemma value_at_bucket_of db B K : pairs (bucket_of db B) !! K = value_at db B K.
Proof. unfold bucket_of, value_at. now destruct (db !! B). Qed.

End Runs.

(** ** Set and Get *)

(** C1, as amended.  For a bucket name and a key that are not empty, a
    key of at most [MaxKeySize] bytes and a value of at most
    [MaxValueSize] bytes, [Set] succeeds and [Get] on the store it
    leaves returns exactly the bytes that were stored. *)
Theorem Set_then_Get (db : gmap string Bucket) (B K V : string) :
  B <> "" -> K <> "" ->
  len K <= bolt.MaxKeySize -> len V <= bolt.MaxValueSize ->
  exists db',
    blight.Set_ B K V db = (Ok tt, db') /\
    db' = <[B := put_pair K V (bucket_of db B)]> db /\
    blight.Get B K db' = (Ok (Some V), db').
Proof.
  intros HB HK Hk Hv.
  exists (<[B := put_pair K V (bucket_of db B)]> db). split; [|split].
  - apply Set_Ok; [exact HB | now apply put_error_None].
  - reflexivity.
  - erewrite Get_found by apply lookup_insert_eq.
    simpl. now rewrite lookup_insert_eq.
Qed.

Lemma Set_then_Get_witness :
  exists db',
    blight.Set_ "users" "alice" "42" ∅ = (Ok tt, db') /\
    db' = <["users" := put_pair "alice" "42" (bucket_of ∅ "users")]> ∅ /\
    blight.Get "users" "alice" db' = (Ok (Some "42"), db').
Proof.
  apply (Set_then_Get ∅ "users" "alice" "42");
    [discriminate | discriminate | vm_compute; discriminate | vm_compute; discriminate].
Defined.

(** C1 as it was stated fails on the empty key: [Put] refuses it, the
    batch is rolled back, and the bucket [Set] would have created is
    not there for [Get]. *)
Lemma Set_then_Get_empty_key :
  blight.Set_ "users" "" "42" ∅ = (Err ErrKeyRequired, ∅) /\
  blight.Get "users" "" (blight.Set_ "users" "" "42" ∅).2
    = (Err (BucketNotFoundError "users"), ∅) /\
  (blight.Get "users" "" (blight.Set_ "users" "" "42" ∅).2).1 <> Ok (Some "42").
Proof.
  assert (blight.Set_ "users" "" "42" ∅ = (Err ErrKeyRequired, ∅)) as E
    by (apply Set_Err; [discriminate | reflexivity]).
  rewrite E. simpl. rewrite Get_not_found by apply lookup_empty.
  repeat split. discriminate.
Qed.

(** ** Get *)

(** C3.  [Get] fails with the bucket-not-found error when the bucket
    does not exist; when the bucket exists and the key is not in it,
    [Get] returns nil and no error, exactly as it would for no other
    reason than the key's absence: no error does not mean the key was
    there. *)
Theorem Get_missing (db : gmap string Bucket) (B K : string) :
  (db !! B = None ->
     blight.Get B K db = (Err (BucketNotFoundError B), db)) /\
  (forall b, db !! B = Some b -> pairs b !! K = None ->
     blight.Get B K db = (Ok None, db)) /\
  (forall v, blight.Get B K db = (Ok (Some v), db) <-> value_at db B K = Some v).
Proof.
  split; [|split].
  - apply Get_not_found.
  - intros b Hb HK. rewrite (Get_found _ _ _ _ Hb). now rewrite HK.
  - intros v. unfold value_at. destruct (db !! B) as [b|] eqn:Hb.
    + rewrite (Get_found _ _ _ _ Hb). split; [now intros [= ->] | now intros ->].
    + rewrite (Get_not_found _ _ _ Hb). split; discriminate.
Qed.

Lemma Get_missing_witness :
  blight.Get "users" "alice" ∅ = (Err (BucketNotFoundError "users"), ∅) /\
  blight.Get "users" "alice" {["users" := new_bucket]}
    = (Ok None, {["users" := new_bucket]}).
Proof.
  split.
  - apply (Get_missing ∅ "users" "alice"). apply lookup_empty.
  - apply (Get_missing {["users" := new_bucket]} "users" "alice") with new_bucket.
    + apply lookup_singleton_eq.
    + apply lookup_empty.
Defined.

(** ** Append *)

Section AppendKeys.

Implicit Types (db : gmap string Bucket) (B V : string).

Lemma uint64_range v : 0 <= uint64 v < uint64_modulus.
Proof. unfold uint64. apply Z.mod_pos_bound. reflexivity. Qed.

Lemma uint64_small v : 0 <= v < uint64_modulus -> uint64 v = v.
Proof. unfold uint64. apply Z.mod_small. Qed.

Lemma uint64_idemp v : uint64 (uint64 v) = uint64 v.
Proof. apply uint64_small, uint64_range. Qed.

(** The next key is above the last one unless the counter wraps. *)
Lemma itob_next id :
  0 <= id -> id + 1 < uint64_modulus -> bytes_lt (itob id) (itob (uint64 (id + 1))).
Proof.
  intros H0 H1. apply itob_lt.
  rewrite uint64_idemp, !uint64_small by lia. lia.
Qed.

Lemma appends_cons B V Vs db :
  appends B (V :: Vs) db =
    (itob (sequence (bucket_of (blight.Append B V db).2 B))
       :: (appends B Vs (blight.Append B V db).2).1,
     (appends B Vs (blight.Append B V db).2).2).
Proof. simpl. now destruct (appends B Vs (blight.Append B V db).2). Qed.

(** Any number of appends to one bucket: the keys are strictly
    increasing as long as the counter does not pass 2^64 - 1. *)
Lemma appends_increasing B Vs : forall db,
  B <> "" ->
  Forall (fun V => len V <= bolt.MaxValueSize) Vs ->
  0 <= sequence (bucket_of db B) ->
  sequence (bucket_of db B) + Z.of_nat (length Vs) < uint64_modulus ->
  StronglySorted bytes_lt (appends B Vs db).1 /\
  Forall (bytes_lt (itob (sequence (bucket_of db B)))) (appends B Vs db).1.
Proof.
  induction Vs as [|V Vs IH]; intros db HB HV H0 Hn.
  - split; constructor.
  - apply Forall_cons in HV as [HV HVs].
    rewrite appends_cons. cbn [fst length] in *.
    rewrite (Append_Ok B V db HB HV) in *. cbn [snd] in *.
    rewrite bucket_of_insert.
    set (s := sequence (bucket_of db B)) in *.
    destruct (IH (<[B := append_pair V (bucket_of db B)]> db)) as [IH1 IH2];
      try assumption.
    + rewrite bucket_of_insert. simpl. apply uint64_range.
    + rewrite bucket_of_insert. simpl. fold s.
      rewrite uint64_small by lia. lia.
    + rewrite bucket_of_insert in IH2. simpl in IH2. fold s in IH2.
      assert (bytes_lt (itob s) (itob (uint64 (s + 1)))) as Hlt
        by (apply itob_next; lia).
      split.
      * constructor; assumption.
      * constructor; [exact Hlt|].
        eapply Forall_impl; [exact IH2|].
        intros k Hk. eapply bytes_lt_trans; eassumption.
Qed.

(** Appends leave alone every key they do not use. *)
Lemma appends_frame B Vs : forall db k,
  B <> "" ->
  Forall (fun V => len V <= bolt.MaxValueSize) Vs ->
  k ∉ (appends B Vs db).1 ->
  value_at (appends B Vs db).2 B k = value_at db B k.
Proof.
  induction Vs as [|V Vs IH]; intros db k HB HV Hk; [reflexivity|].
  apply Forall_cons in HV as [HV HVs].
  rewrite appends_cons in *. cbn [fst snd] in *.
  apply not_elem_of_cons in Hk as [Hk1 Hk].
  rewrite (IH _ k HB HVs Hk).
  rewrite (Append_Ok B V db HB HV) in *. cbn [snd] in *.
  rewrite bucket_of_insert in Hk1. rewrite value_at_insert.
  cbn [append_pair pairs sequence] in *.
  rewrite lookup_insert_ne by congruence. apply value_at_bucket_of.
Qed.

(** After the appends each value is under the key its call used. *)
Lemma appends_stored B Vs : forall db,
  B <> "" ->
  Forall (fun V => len V <= bolt.MaxValueSize) Vs ->
  0 <= sequence (bucket_of db B) ->
  sequence (bucket_of db B) + Z.of_nat (length Vs) < uint64_modulus ->
  Forall2 (fun k V => value_at (appends B Vs db).2 B k = Some V)
          (appends B Vs db).1 Vs.
Proof.
  induction Vs as [|V Vs IH]; intros db HB HV H0 Hn; [constructor|].
  pose proof (appends_increasing B (V :: Vs) db HB HV H0 Hn) as [Hs _].
  apply Forall_cons in HV as [HV HVs].
  rewrite appends_cons in *. cbn [fst snd length] in *.
  apply StronglySorted_inv in Hs as [_ Hlt].
  assert (0 <= sequence (bucket_of (blight.Append B V db).2 B)
          /\ sequence (bucket_of (blight.Append B V db).2 B)
               + Z.of_nat (length Vs) < uint64_modulus) as [H0' Hn'].
  { rewrite (Append_Ok B V db HB HV). cbn [snd].
    rewrite bucket_of_insert. cbn [append_pair sequence].
    rewrite uint64_small by lia. lia. }
  constructor; [|now apply IH].
  rewrite appends_frame; [|exact HB|exact HVs|].
  - rewrite (Append_Ok B V db HB HV). cbn [snd].
    rewrite bucket_of_insert, value_at_insert. cbn [append_pair pairs sequence].
    apply lookup_insert_eq.
  - intros Hin. rewrite Forall_forall in Hlt.
    eapply bytes_lt_irrefl, Hlt, Hin.
Qed.

End AppendKeys.

(** C2, as amended.  Two successive appends to a bucket with a
    non-empty name, of values of at most [MaxValueSize] bytes, both
    succeed and put their values under the 8-byte big-endian encodings
    of the bucket's sequence after each call; the first key is below
    the second under byte-wise comparison, provided the second
    increment of the 64-bit sequence does not wrap around.  For any
    number of successive appends the keys are strictly increasing and
    each value is found under its key, as long as the sequence stays
    below 2^64. *)
Theorem Append_keys_increase (db : gmap string Bucket) (B : string) :
  B <> "" ->
  (forall V1 V2,
     len V1 <= bolt.MaxValueSize -> len V2 <= bolt.MaxValueSize ->
     uint64 (sequence (bucket_of db B) + 1) + 1 < uint64_modulus ->
     exists db1 db2 b1 b2,
       blight.Append B V1 db = (Ok tt, db1) /\ db1 !! B = Some b1 /\
       blight.Append B V2 db1 = (Ok tt, db2) /\ db2 !! B = Some b2 /\
       pairs b1 = <[itob (sequence b1) := V1]> (pairs (bucket_of db B)) /\
       pairs b2 = <[itob (sequence b2) := V2]> (pairs b1) /\
       String.length (itob (sequence b1)) = 8%nat /\
       String.length (itob (sequence b2)) = 8%nat /\
       be_value 0 (itob (sequence b1)) = sequence b1 /\
       be_value 0 (itob (sequence b2)) = sequence b2 /\
       bytes_lt (itob (sequence b1)) (itob (sequence b2))) /\
  (forall Vs,
     Forall (fun V => len V <= bolt.MaxValueSize) Vs ->
     0 <= sequence (bucket_of db B) ->
     sequence (bucket_of db B) + Z.of_nat (length Vs) < uint64_modulus ->
     StronglySorted bytes_lt (appends B Vs db).1 /\
     Forall2 (fun k V => value_at (appends B Vs db).2 B k = Some V)
             (appends B Vs db).1 Vs).
Proof.
  intros HB. split.
  - intros V1 V2 H1 H2 Hw.
    set (b1 := append_pair V1 (bucket_of db B)).
    set (db1 := <[B := b1]> db).
    set (b2 := append_pair V2 b1).
    exists db1, (<[B := b2]> db1), b1, b2.
    assert (bucket_of db1 B = b1) as E1 by apply bucket_of_insert.
    repeat split.
    + now apply Append_Ok.
    + apply lookup_insert_eq.
    + unfold b2. rewrite <- E1. now apply Append_Ok.
    + apply lookup_insert_eq.
    + rewrite be_value_itob. apply uint64_idemp.
    + rewrite be_value_itob. apply uint64_idemp.
    + subst b2 b1. cbn [append_pair sequence] in *.
      apply itob_next; [apply uint64_range | exact Hw].
  - intros Vs HV H0 Hn. split.
    + now apply appends_increasing.
    + now apply appends_stored.
Qed.

Lemma Append_keys_increase_witness :
  (exists db1 db2 b1 b2,
     blight.Append "log" "first" ∅ = (Ok tt, db1) /\ db1 !! "log" = Some b1 /\
     blight.Append "log" "second" db1 = (Ok tt, db2) /\ db2 !! "log" = Some b2 /\
     pairs b1 = <[itob (sequence b1) := "first"]> (pairs (bucket_of ∅ "log")) /\
     pairs b2 = <[itob (sequence b2) := "second"]> (pairs b1) /\
     String.length (itob (sequence b1)) = 8%nat /\
     String.length (itob (sequence b2)) = 8%nat /\
     be_value 0 (itob (sequence b1)) = sequence b1 /\
     be_value 0 (itob (sequence b2)) = sequence b2 /\
     bytes_lt (itob (sequence b1)) (itob (sequence b2))) /\
  StronglySorted bytes_lt (appends "log" ["first"; "second"; "third"] ∅).1.
Proof.
  destruct (Append_keys_increase ∅ "log") as [H2 Hn]; [discriminate|].
  split.
  - apply (H2 "first" "second");
      [vm_compute; discriminate | vm_compute; discriminate | vm_compute; reflexivity].
  - apply (Hn ["first"; "second"; "third"]);
      [repeat constructor; vm_compute; discriminate
      | vm_compute; discriminate | vm_compute; reflexivity].
Defined.

(** C2 as it was stated fails when the sequence wraps: in a bucket
    whose sequence stands at 2^64 - 2, the first append gets the key
    ff..ff and the second the key 00..00, which is below it. *)
Lemma Append_keys_wrap :
  let db := {["log" := mkBucket ∅ (2 ^ 64 - 2)]} : gmap string Bucket in
  let db1 := (blight.Append "log" "first" db).2 in
  let db2 := (blight.Append "log" "second" db1).2 in
  (blight.Append "log" "first" db).1 = Ok tt /\
  (blight.Append "log" "second" db1).1 = Ok tt /\
  sequence (bucket_of db1 "log") = 2 ^ 64 - 1 /\
  sequence (bucket_of db2 "log") = 0 /\
  pairs (bucket_of db2 "log")
    = <[itob 0 := "second"]> (<[itob (2 ^ 64 - 1) := "first"]> ∅) /\
  bytes_compare (itob (2 ^ 64 - 1)) (itob 0) = Gt /\
  ~ bytes_lt (itob (2 ^ 64 - 1)) (itob 0).
Proof.
  intros db db1 db2.
  assert (blight.Append "log" "first" db
          = (Ok tt, <["log" := append_pair "first" (bucket_of db "log")]> db)) as E1
    by (apply Append_Ok; [discriminate | vm_compute; discriminate]).
  assert (blight.Append "log" "second" db1
          = (Ok tt, <["log" := append_pair "second" (bucket_of db1 "log")]> db1)) as E2
    by (apply Append_Ok; [discriminate | vm_compute; discriminate]).
  subst db2. rewrite E2. subst db1. rewrite E1. cbn [fst snd].
  rewrite !bucket_of_insert.
  assert (bucket_of db "log" = mkBucket ∅ (2 ^ 64 - 2)) as ->
    by (unfold bucket_of, db; now rewrite lookup_singleton_eq).
  assert (bytes_compare (itob (2 ^ 64 - 1)) (itob 0) = Gt) as Hgt
    by (vm_compute; reflexivity).
  repeat split; try exact Hgt.
  unfold bytes_lt. rewrite Hgt. discriminate.
Qed.

(** ** ResetBucket *)




(** ** CreateBucket and DeleteBucket *)

(** C6, as amended.  [CreateBucket] of a non-empty name succeeds
    whether or not the bucket exists, leaves an existing bucket as it
    is, and a second call changes nothing more.  [DeleteBucket]
    succeeds when the bucket exists and removes it; when the bucket
    does not exist it fails and changes nothing: with the engine's
    bucket-not-found error, except that for the empty name on a store
    without buckets the engine's error is incompatible-value.  So the
    second of two calls in a row fails, with the store as the first
    call left it. *)
Theorem CreateBucket_DeleteBucket_twice (db : gmap string Bucket) (B : string) :
  (B <> "" ->
     exists db',
       blight.CreateBucket B db = (Ok tt, db') /\
       db' !! B = Some (bucket_of db B) /\
       (forall B', B' <> B -> db' !! B' = db !! B') /\
       blight.CreateBucket B db' = (Ok tt, db')) /\
  (forall b, db !! B = Some b ->
     blight.DeleteBucket B db = (Ok tt, delete B db) /\
     (B <> "" ->
        blight.DeleteBucket B (delete B db) = (Err ErrBucketNotFound, delete B db))) /\
  (db !! B = None -> B <> "" \/ db <> ∅ ->
     blight.DeleteBucket B db = (Err ErrBucketNotFound, db)) /\
  (db = ∅ -> B = "" ->
     blight.DeleteBucket B db = (Err ErrIncompatibleValue, db)) /\
  (blight.DeleteBucket B (blight.DeleteBucket B db).2).1 <> Ok tt /\
  (blight.DeleteBucket B (blight.DeleteBucket B db).2).2
    = (blight.DeleteBucket B db).2.
Proof.
  assert (forall db', db' !! B = None ->
            (blight.DeleteBucket B db').1 <> Ok tt /\ (blight.DeleteBucket B db').2 = db')
    as Habsent.
  { intros db' Hb. destruct (DeleteBucket_absent_unchanged B db' Hb) as [e ->].
    split; [discriminate|reflexivity]. }
  split; [|split; [|split; [|split]]].
  - intros HB. exists (<[B := bucket_of db B]> db). repeat split.
    + now apply CreateBucket_run.
    + apply lookup_insert_eq.
    + intros B' HB'. now apply lookup_insert_ne.
    + rewrite (CreateBucket_run B _ HB).
      now rewrite bucket_of_insert, insert_insert_eq.
  - intros b Hb. split.
    + eapply DeleteBucket_found, Hb.
    + intros HB. apply DeleteBucket_not_found; [apply lookup_delete_eq|now left].
  - apply DeleteBucket_not_found.
  - intros -> ->. apply DeleteBucket_blank_empty_store.
  - destruct (db !! B) as [b|] eqn:Hb.
    + rewrite (DeleteBucket_found B db b Hb). cbn [snd].
      apply Habsent, lookup_delete_eq.
    + destruct (Habsent db Hb) as [H1 H2]. rewrite H2. split; [exact H1|exact H2].
Qed.

Lemma CreateBucket_DeleteBucket_twice_witness :
  (exists db',
     blight.CreateBucket "users" ∅ = (Ok tt, db') /\
     db' !! "users" = Some (bucket_of ∅ "users") /\
     (forall B', B' <> "users" -> db' !! B' = (∅ : gmap string Bucket) !! B') /\
     blight.CreateBucket "users" db' = (Ok tt, db')) /\
  (blight.DeleteBucket "users" {["users" := new_bucket]}
     = (Ok tt, delete "users" {["users" := new_bucket]}) /\
   ("users" <> "" ->
    blight.DeleteBucket "users" (delete "users" {["users" := new_bucket]})
      = (Err ErrBucketNotFound, delete "users" {["users" := new_bucket]}))) /\
  blight.DeleteBucket "users" ∅ = (Err ErrBucketNotFound, ∅) /\
  blight.DeleteBucket "" ∅ = (Err ErrIncompatibleValue, ∅).
Proof.
  split; [|split; [|split]].
  - apply (CreateBucket_DeleteBucket_twice ∅ "users"). discriminate.
  - apply (CreateBucket_DeleteBucket_twice {["users" := new_bucket]} "users")
      with new_bucket.
    apply lookup_singleton_eq.
  - apply (CreateBucket_DeleteBucket_twice ∅ "users");
      [apply lookup_empty | left; discriminate].
  - apply (CreateBucket_DeleteBucket_twice ∅ ""); reflexivity.
Defined.

(** C6 as it was stated fails for [DeleteBucket] on a bucket that does
    not exist, hence for the second of two calls in a row, and for
    [CreateBucket] on the empty name. *)
Lemma DeleteBucket_absent_bucket :
  blight.DeleteBucket "users" ∅ = (Err ErrBucketNotFound, ∅) /\
  (blight.DeleteBucket "users" {["users" := new_bucket]}).1 = Ok tt /\
  (blight.DeleteBucket "users"
     (blight.DeleteBucket "users" {["users" := new_bucket]}).2).1
    = Err ErrBucketNotFound /\
  blight.CreateBucket "" ∅ = (Err ErrBucketNameRequired, ∅).
Proof.
  rewrite (DeleteBucket_not_found "users" ∅)
    by (apply lookup_empty || (left; discriminate)).
  rewrite (DeleteBucket_found "users" _ new_bucket) by apply lookup_singleton_eq.
  cbn [fst snd].
  rewrite DeleteBucket_not_found
    by (apply lookup_delete_eq || (left; discriminate)).
  repeat split.
Qed.

(** ** Delete *)

(** C7.  [Delete] fails with the bucket-not-found error when the
    bucket does not exist.  When the bucket exists it succeeds, the key
    is gone afterwards and nothing else in the bucket has changed; when
    the key was not there the store is left as it was. *)
Theorem Delete_missing (db : gmap string Bucket) (B K : string) :
  (db !! B = None ->
     blight.Delete B K db = (Err (BucketNotFoundError B), db)) /\
  (forall b, db !! B = Some b ->
     exists db',
       blight.Delete B K db = (Ok tt, db') /\
       value_at db' B K = None /\
       (forall K', K' <> K -> value_at db' B K' = value_at db B K') /\
       (pairs b !! K = None -> db' = db)).
Proof.
  split.
  - apply Delete_not_found.
  - intros b Hb.
    exists (<[B := mkBucket (delete K (pairs b)) (sequence b)]> db).
    repeat split.
    + now apply Delete_found.
    + rewrite value_at_insert. apply lookup_delete_eq.
    + intros K' HK'. rewrite value_at_insert. cbn [pairs].
      rewrite lookup_delete_ne by congruence.
      unfold value_at. now rewrite Hb.
    + intros HK. rewrite delete_id by exact HK.
      apply insert_id. rewrite Hb. now destruct b.
Qed.

Lemma Delete_missing_witness :
  blight.Delete "users" "alice" ∅ = (Err (BucketNotFoundError "users"), ∅) /\
  exists db',
    blight.Delete "users" "alice" {["users" := new_bucket]} = (Ok tt, db') /\
    value_at db' "users" "alice" = None /\
    (forall K', K' <> "alice" ->
       value_at db' "users" K' = value_at {["users" := new_bucket]} "users" K') /\
    (pairs new_bucket !! "alice" = None -> db' = {["users" := new_bucket]}).
Proof.
  split.
  - apply (Delete_missing ∅ "users" "alice"). apply lookup_empty.
  - apply (Delete_missing {["users" := new_bucket]} "users" "alice").
    apply lookup_singleton_eq.
Defined.

(** ** The frame of Set *)

(** C10.  [Set] changes the binding of its key in its bucket and
    nothing else: every other key of the bucket, and every other
    bucket with its keys and its sequence, is as before, in the
    batched helper and in its sibling alike; the bucket's own sequence
    is not moved either. *)
Theorem Set_frame (db : gmap string Bucket) (B K V : string) :
  (forall K', K' <> K ->
     value_at (blight.Set_ B K V db).2 B K' = value_at db B K' /\
     value_at (part_000.Set_ B K V db).2 B K' = value_at db B K') /\
  (forall B', B' <> B ->
     (blight.Set_ B K V db).2 !! B' = db !! B' /\
     (part_000.Set_ B K V db).2 !! B' = db !! B') /\
  sequence (bucket_of (blight.Set_ B K V db).2 B) = sequence (bucket_of db B) /\
  sequence (bucket_of (part_000.Set_ B K V db).2 B) = sequence (bucket_of db B).
Proof.
  rewrite Set_same.
  assert (part_000.Set_ B K V db = ((part_000.Set_ B K V db).1, db) \/
         part_000.Set_ B K V db = (Ok tt, <[B := put_pair K V (bucket_of db B)]> db))
    as [E|E].
  { destruct (decide (B = "")) as [->|HB]; [left; reflexivity|].
    destruct (put_error K V) as [e|] eqn:He.
    - left. now rewrite (Set_Update_Err B K V db e HB He).
    - right. now apply Set_Update_Ok. }
  - rewrite E. cbn [snd]. repeat split.
  - rewrite E. cbn [snd]. repeat split.
    + rewrite value_at_insert. cbn [put_pair pairs].
      rewrite lookup_insert_ne by congruence. apply value_at_bucket_of.
    + rewrite value_at_insert. cbn [put_pair pairs].
      rewrite lookup_insert_ne by congruence. apply value_at_bucket_of.
    + now apply lookup_insert_ne.
    + now apply lookup_insert_ne.
    + now rewrite bucket_of_insert.
    + now rewrite bucket_of_insert.
Qed.

Lemma Set_frame_witness :
  value_at (blight.Set_ "users" "alice" "42" {["users" := mkBucket {["bob" := "7"]} 3]}).2
    "users" "bob" = Some "7".
Proof.
  pose proof (Set_frame {["users" := mkBucket {["bob" := "7"]} 3]}
                "users" "alice" "42") as [H _].
  destruct (H "bob") as [-> _]; [discriminate|].
  reflexivity.
Defined.

(** ** The JSON helpers *)

Section JSONRuns.

Context {Value : Type}.
Variable Marshal : Value -> string + string.
Variable Unmarshal : string -> Value + string.
Implicit Types (db : gmap string Bucket) (B K : string) (v : Value).

Lemma put_error_kind K V e :
  put_error K V = Some e ->
  e = ErrKeyRequired \/ e = ErrKeyTooLarge \/ e = ErrValueTooLarge.
Proof.
  unfold put_error.
  destruct (len K =? 0); [intros [= <-]; auto|].
  destruct (len K >? bolt.MaxKeySize); [intros [= <-]; auto|].
  destruct (len V >? bolt.MaxValueSize); [intros [= <-]; auto|discriminate].
Qed.

(** [Set] never fails with an error of the json package. *)
Lemma Set_not_SerializationError B K V db msg :
  (blight.Set_ B K V db).1 <> Err (SerializationError msg).
Proof.
  destruct (decide (B = "")) as [->|HB]; [rewrite Set_blank; discriminate|].
  destruct (put_error K V) as [e|] eqn:He.
  - rewrite (Set_Err B K V db e HB He). cbn [fst].
    destruct (put_error_kind _ _ _ He) as [->|[->| ->]]; discriminate.
  - rewrite (Set_Ok B K V db HB He). discriminate.
Qed.

Lemma SetJSON_encoded B K v db j :
  Marshal v = inl j -> blight.SetJSON Marshal B K v db = blight.Set_ B K j db.
Proof. unfold blight.SetJSON. now intros ->. Qed.

Lemma SetJSON_not_encoded B K v db msg :
  Marshal v = inr msg ->
  blight.SetJSON Marshal B K v db = (Err (SerializationError msg), db).
Proof. unfold blight.SetJSON. now intros ->. Qed.

Lemma GetJSON_not_found B K db :
  db !! B = None ->
  blight.GetJSON Unmarshal B K db = (Err (BucketNotFoundError B), db).
Proof.
  intros Hb. unfold blight.GetJSON.
  eapply bind_Err. now apply Get_not_found.
Qed.

Lemma GetJSON_found B K db b :
  db !! B = Some b ->
  blight.GetJSON Unmarshal B K db =
    match Unmarshal (default "" (pairs b !! K)) with
    | inr msg => (Err (SerializationError msg), db)
    | inl out => (Ok out, db)
    end.
Proof.
  intros Hb. unfold blight.GetJSON.
  erewrite bind_Ok by (eapply Get_found, Hb). cbv beta.
  now destruct (Unmarshal _).
Qed.

Lemma SetJSONBatch_not_encoded B K v db msg :
  Marshal v = inr msg ->
  blight.SetJSONBatch Marshal B K v db = ((Err (SerializationError msg), []), db).
Proof. unfold blight.SetJSONBatch. now intros ->. Qed.

(** The batched function of [SetJSONBatch]. *)
Let batched B K (j : string) : Tx unit :=
  do bkt <- bolt.Tx_Bucket B;
  do _ <- on_error (bolt.Put bkt K j) blight.logrus_Fatal;
  ret tt.

Lemma batched_nil B K j db :
  db !! B = None -> batched B K j db = (Panic NilDereference, db).
Proof.
  intros Hb. unfold batched.
  erewrite bind_Ok by now apply Tx_Bucket_None. reflexivity.
Qed.

Lemma batched_Fatal B K j db b e :
  db !! B = Some b -> put_error K j = Some e -> batched B K j db = (Fatal e, db).
Proof.
  intros Hb He. unfold batched.
  erewrite bind_Ok by (eapply Tx_Bucket_Some, Hb).
  eapply bind_Fatal. unfold on_error.
  now rewrite (Put_Err db B K j b e Hb He).
Qed.

Lemma batched_Ok B K j db b :
  db !! B = Some b -> put_error K j = None ->
  batched B K j db = (Ok tt, <[B := put_pair K j b]> db).
Proof.
  intros Hb He. unfold batched.
  erewrite bind_Ok by (eapply Tx_Bucket_Some, Hb).
  erewrite bind_Ok; [reflexivity|]. unfold on_error.
  now rewrite (Put_Ok db B K j b Hb He).
Qed.

Lemma SetJSONBatch_encoded B K v db j :
  Marshal v = inl j ->
  blight.SetJSONBatch Marshal B K v db =
    blight.recover_Info "Recovered in SetJSONBatch"
      (do _ <- blight.discard_error (bolt.Batch (batched B K j)); ret tt) db.
Proof. unfold blight.SetJSONBatch. now intros ->. Qed.

Lemma SetJSONBatch_nil B K v db j :
  Marshal v = inl j -> db !! B = None ->
  blight.SetJSONBatch Marshal B K v db =
    ((Ok tt, [blight.Info "Recovered in SetJSONBatch" NilDereference]), db).
Proof.
  intros Hj Hb. rewrite (SetJSONBatch_encoded _ _ _ _ _ Hj).
  unfold blight.recover_Info, bind, blight.discard_error.
  unfold bolt.Batch, bolt.Update, bolt.safelyCall.
  now rewrite (batched_nil _ _ _ _ Hb).
Qed.

Lemma SetJSONBatch_Fatal B K v db j b e :
  Marshal v = inl j -> db !! B = Some b -> put_error K j = Some e ->
  blight.SetJSONBatch Marshal B K v db = ((Fatal e, []), db).
Proof.
  intros Hj Hb He. rewrite (SetJSONBatch_encoded _ _ _ _ _ Hj).
  unfold blight.recover_Info, bind, blight.discard_error.
  rewrite Batch_Update. unfold bolt.Update.
  now rewrite (batched_Fatal _ _ _ _ _ _ Hb He).
Qed.

Lemma SetJSONBatch_Ok B K v db j b :
  Marshal v = inl j -> db !! B = Some b -> put_error K j = None ->
  blight.SetJSONBatch Marshal B K v db = ((Ok tt, []), <[B := put_pair K j b]> db).
Proof.
  intros Hj Hb He. rewrite (SetJSONBatch_encoded _ _ _ _ _ Hj).
  unfold blight.recover_Info, bind, blight.discard_error.
  rewrite Batch_Update. unfold bolt.Update.
  now rewrite (batched_Ok _ _ _ _ _ Hb He).
Qed.

End JSONRuns.

(** C8, as amended.  For a value whose encoding decodes back to it, a
    bucket name and a key that are not empty, a key of at most
    [MaxKeySize] bytes and an encoding of at most [MaxValueSize]
    bytes, [SetJSON] succeeds and [GetJSON] then yields the value.
    [SetJSON] fails with an error of the json package exactly when the
    value cannot be encoded.  [GetJSON] passes on the bucket-not-found
    error of [Get], and fails with an error of the json package when
    the stored bytes (none, for a key that is not there) do not
    decode. *)
Theorem SetJSON_then_GetJSON {Value : Type}
    (Marshal : Value -> string + string) (Unmarshal : string -> Value + string)
    (db : gmap string Bucket) (B K : string) (v : Value) :
  (forall j, Marshal v = inl j -> Unmarshal j = inl v ->
     B <> "" -> K <> "" ->
     len K <= bolt.MaxKeySize -> len j <= bolt.MaxValueSize ->
     exists db',
       blight.SetJSON Marshal B K v db = (Ok tt, db') /\
       blight.GetJSON Unmarshal B K db' = (Ok v, db')) /\
  (forall msg,
     (blight.SetJSON Marshal B K v db).1 = Err (SerializationError msg)
     <-> Marshal v = inr msg) /\
  (db !! B = None ->
     blight.GetJSON Unmarshal B K db = (Err (BucketNotFoundError B), db)) /\
  (forall b msg, db !! B = Some b ->
     Unmarshal (default "" (pairs b !! K)) = inr msg ->
     blight.GetJSON Unmarshal B K db = (Err (SerializationError msg), db)).
Proof.
  repeat split.
  - intros j Hj Hrt HB HK Hk Hv.
    exists (<[B := put_pair K j (bucket_of db B)]> db). split.
    + rewrite (SetJSON_encoded _ _ _ _ _ _ Hj).
      apply Set_Ok; [exact HB | now apply put_error_None].
    + erewrite GetJSON_found by apply lookup_insert_eq.
      cbn [put_pair pairs]. rewrite lookup_insert_eq. simpl.
      now rewrite Hrt.
  - destruct (Marshal v) as [j|msg'] eqn:Hj.
    + rewrite (SetJSON_encoded _ _ _ _ _ _ Hj). intros H.
      now apply Set_not_SerializationError in H.
    + rewrite (SetJSON_not_encoded _ _ _ _ _ _ Hj). now intros [= ->].
  - intros Hj. now rewrite (SetJSON_not_encoded _ _ _ _ _ _ Hj).
  - apply GetJSON_not_found.
  - intros b msg Hb Hu. rewrite (GetJSON_found _ _ _ _ _ Hb). now rewrite Hu.
Qed.

Lemma SetJSON_then_GetJSON_witness :
  (exists db',
     blight.SetJSON bool_Marshal "flags" "debug" true ∅ = (Ok tt, db') /\
     blight.GetJSON bool_Unmarshal "flags" "debug" db' = (Ok true, db')) /\
  blight.GetJSON bool_Unmarshal "flags" "debug" ∅
    = (Err (BucketNotFoundError "flags"), ∅) /\
  blight.GetJSON bool_Unmarshal "flags" "debug" {["flags" := new_bucket]}
    = (Err (SerializationError "invalid character"), {["flags" := new_bucket]}).
Proof.
  split; [|split].
  - apply (SetJSON_then_GetJSON bool_Marshal bool_Unmarshal ∅ "flags" "debug" true)
      with "true";
      [reflexivity | reflexivity | discriminate | discriminate
      | vm_compute; discriminate | vm_compute; discriminate].
  - apply (SetJSON_then_GetJSON bool_Marshal bool_Unmarshal ∅ "flags" "debug" true).
    apply lookup_empty.
  - apply (SetJSON_then_GetJSON bool_Marshal bool_Unmarshal
             {["flags" := new_bucket]} "flags" "debug" true) with new_bucket.
    + apply lookup_singleton_eq.
    + reflexivity.
Defined.

(** C8 as it was stated fails on the empty key: the value encodes,
    [Put] refuses the key, and [GetJSON] finds no bucket. *)
Lemma SetJSON_then_GetJSON_empty_key :
  bool_Unmarshal "true" = inl true /\
  blight.SetJSON bool_Marshal "flags" "" true ∅ = (Err ErrKeyRequired, ∅) /\
  blight.GetJSON bool_Unmarshal "flags" ""
      (blight.SetJSON bool_Marshal "flags" "" true ∅).2
    = (Err (BucketNotFoundError "flags"), ∅).
Proof.
  assert (blight.SetJSON bool_Marshal "flags" "" true ∅ = (Err ErrKeyRequired, ∅)) as E.
  { rewrite (SetJSON_encoded bool_Marshal _ _ _ _ "true") by reflexivity.
    apply Set_Err; [discriminate | reflexivity]. }
  rewrite E. cbn [snd]. rewrite GetJSON_not_found by apply lookup_empty.
  repeat split.
Qed.

(** ** SetJSONBatch *)

(** C5, as amended.  In [SetJSONBatch] a value that cannot be encoded
    gives the json package's error back to the caller.  When the
    bucket does not exist the batched function panics; the panic is
    recovered and logged, the call returns no error and nothing is
    written.  When [Put] refuses the key or the encoding, the error is
    not returned: the batched function logs it with [logrus.Fatal],
    which ends the process, with nothing written.  Otherwise the pair
    is stored and the call returns no error. *)
Theorem SetJSONBatch_outcomes {Value : Type}
    (Marshal : Value -> string + string)
    (db : gmap string Bucket) (B K : string) (v : Value) :
  (forall msg, Marshal v = inr msg ->
     blight.SetJSONBatch Marshal B K v db
       = ((Err (SerializationError msg), []), db)) /\
  (forall j, Marshal v = inl j -> db !! B = None ->
     blight.SetJSONBatch Marshal B K v db
       = ((Ok tt, [blight.Info "Recovered in SetJSONBatch" NilDereference]), db)) /\
  (forall j b e, Marshal v = inl j -> db !! B = Some b -> put_error K j = Some e ->
     blight.SetJSONBatch Marshal B K v db = ((Fatal e, []), db)) /\
  (forall j b, Marshal v = inl j -> db !! B = Some b -> put_error K j = None ->
     blight.SetJSONBatch Marshal B K v db
       = ((Ok tt, []), <[B := put_pair K j b]> db)).
Proof.
  repeat split.
  - apply SetJSONBatch_not_encoded.
  - apply SetJSONBatch_nil.
  - apply SetJSONBatch_Fatal.
  - apply SetJSONBatch_Ok.
Qed.

Lemma SetJSONBatch_outcomes_witness :
  blight.SetJSONBatch bool_Marshal "flags" "debug" true ∅
    = ((Ok tt, [blight.Info "Recovered in SetJSONBatch" NilDereference]), ∅) /\
  blight.SetJSONBatch bool_Marshal "flags" "debug" true {["flags" := new_bucket]}
    = ((Ok tt, []),
       <["flags" := put_pair "debug" "true" new_bucket]> {["flags" := new_bucket]}).
Proof.
  split.
  - apply (SetJSONBatch_outcomes bool_Marshal ∅ "flags" "debug" true) with "true";
      [reflexivity | apply lookup_empty].
  - apply (SetJSONBatch_outcomes bool_Marshal {["flags" := new_bucket]}
             "flags" "debug" true);
      [reflexivity | apply lookup_singleton_eq | reflexivity].
Defined.

(** C5 as it was stated fails where [Put] returns an error: the call
    does not return it, the process exits. *)
Lemma SetJSONBatch_Put_error :
  blight.SetJSONBatch bool_Marshal "flags" "" true {["flags" := new_bucket]}
    = ((Fatal ErrKeyRequired, []), {["flags" := new_bucket]}) /\
  (blight.SetJSONBatch bool_Marshal "flags" "" true {["flags" := new_bucket]}).1.1
    <> Err ErrKeyRequired.
Proof.
  rewrite (SetJSONBatch_Fatal bool_Marshal "flags" "" true _ "true" new_bucket
             ErrKeyRequired);
    [split; [reflexivity | discriminate] | reflexivity
    | apply lookup_singleton_eq | reflexivity].
Qed.

Local Open Scope list_scope.

(** ** The order of a cursor *)

Section Items.

Implicit Types (bk : Bucket) (k v : string).

Lemma bytes_le_trans a b c : bytes_le a b -> bytes_le b c -> bytes_le a c.
Proof.
  rewrite !bytes_le_lt_or_eq. intros [H1| ->] [H2| ->]; auto.
  left. eapply bytes_lt_trans; eassumption.
Qed.

Lemma bytes_le_total a b : bytes_le a b \/ bytes_le b a.
Proof.
  unfold bytes_le. rewrite (bytes_compare_antisym b a).
  destruct (bytes_compare a b); simpl; [left|left|right]; discriminate.
Qed.

#[local] Instance key_le_transitive : Transitive bolt.key_le.
Proof. intros p q r. apply bytes_le_trans. Qed.

#[local] Instance key_le_total : Total bolt.key_le.
Proof. intros p q. apply bytes_le_total. Qed.

Lemma items_Permutation bk : bolt.items bk ≡ₚ map_to_list (pairs bk).
Proof. apply merge_sort_Permutation. Qed.

Lemma items_length bk : length (bolt.items bk) = size (pairs bk).
Proof. rewrite items_Permutation. apply length_map_to_list. Qed.

Lemma items_elem_of bk k v : (k, v) ∈ bolt.items bk <-> pairs bk !! k = Some v.
Proof. rewrite items_Permutation. apply elem_of_map_to_list. Qed.

Lemma items_NoDup_keys bk : NoDup (bolt.items bk).*1.
Proof. rewrite items_Permutation. apply NoDup_fst_map_to_list. Qed.

(** Sorted with distinct keys is strictly sorted. *)
Lemma keys_strictly_sorted (l : list (string * string)) :
  StronglySorted bolt.key_le l -> NoDup l.*1 -> StronglySorted bytes_lt l.*1.
Proof.
  induction 1 as [|p l Hs IH Hp]; intros Hnd; [constructor|].
  cbn [fmap list_fmap] in *. apply NoDup_cons in Hnd as [Hnot Hnd].
  constructor; [now apply IH|].
  apply Forall_forall. intros k Hk.
  apply list_elem_of_fmap in Hk as [q [-> Hq]].
  rewrite Forall_forall in Hp. specialize (Hp q Hq).
  apply bytes_le_lt_or_eq in Hp as [Hlt|Heq]; [exact Hlt|].
  destruct Hnot. rewrite Heq. apply list_elem_of_fmap. eauto.
Qed.

Lemma items_sorted bk : StronglySorted bytes_lt (bolt.items bk).*1.
Proof.
  apply keys_strictly_sorted; [|apply items_NoDup_keys].
  apply StronglySorted_merge_sort; apply _.
Qed.

End Items.

(** ** AllFunc, one call after the other *)

Section Sequential.

Context {S : Type}.
Implicit Types (fn : string -> string -> S -> S) (s : S) (db : gmap string Bucket).

Lemma AllFunc_seq_not_found B fn s db :
  db !! B = None ->
  part_000.AllFunc B fn s db = (Err (BucketNotFoundError B), db).
Proof.
  intros Hb. unfold part_000.AllFunc, bolt.View.
  erewrite bind_Ok by now apply Tx_Bucket_None. reflexivity.
Qed.

Lemma AllFunc_seq_found B fn s db bk :
  db !! B = Some bk ->
  part_000.AllFunc B fn s db = (Ok (part_000.cursor_for (bolt.items bk) fn s), db).
Proof.
  intros Hb. unfold part_000.AllFunc, bolt.View.
  erewrite bind_Ok by (eapply Tx_Bucket_Some, Hb). cbv beta iota.
  erewrite bind_Ok by (eapply Cursor_Some, Hb). reflexivity.
Qed.

End Sequential.

Lemma cursor_for_record c : forall t,
  part_000.cursor_for c part_000.record_call t = t ++ c.
Proof.
  induction c as [|[k v] c IH]; intros t; simpl.
  - now rewrite app_nil_r.
  - rewrite IH. unfold part_000.record_call. now rewrite <- app_assoc.
Qed.

(** ** AllFunc on the pool *)

Section Pool.

Implicit Types (p : blight.pool) (c cs : list (string * string))
  (gs : list ((string * string) * blight.stage)).

Lemma waiting_app gs1 gs2 : waiting (gs1 ++ gs2) = waiting gs1 ++ waiting gs2.
Proof.
  induction gs1 as [|[kv []] gs1 IH]; simpl; [reflexivity| |exact IH|exact IH].
  now rewrite IH.
Qed.

Lemma undone_app gs1 gs2 : undone (gs1 ++ gs2) = (undone gs1 + undone gs2)%nat.
Proof.
  induction gs1 as [|[kv []] gs1 IH]; simpl; [reflexivity| | |exact IH];
    now rewrite IH.
Qed.

Lemma undone_0_waiting gs : undone gs = 0%nat -> waiting gs = [].
Proof.
  induction gs as [|[kv []] gs IH]; simpl; try discriminate; auto.
Qed.

Lemma pool_inv_init c : pool_inv c (blight.pool_init c).
Proof.
  unfold pool_inv, blight.pool_init; simpl.
  split; [reflexivity|split; [reflexivity|split; [reflexivity|discriminate]]].
Qed.

Lemma pool_inv_step c p p' : pool_inv c p -> blight.step p p' -> pool_inv c p'.
Proof.
  intros (Hperm & Hwg & Htok & Hret) Hstep.
  destruct Hstep; unfold pool_inv in *; cbn [blight.calls blight.goroutines
    blight.cursor blight.wg blight.tokens blight.returned] in *;
    rewrite ?waiting_app, ?undone_app, ?length_app in *; simpl in *;
    (split; [|split; [lia|split; [lia|]]]);
    try (intros Hr; destruct (Hret Hr) as [Hc Hw]; split; [exact Hc|lia]).
  - rewrite <- Hperm. now rewrite <- !app_assoc.
  - discriminate.
  - rewrite <- Hperm. rewrite <- !app_assoc. simpl.
    apply Permutation_app_head.
    rewrite (Permutation_middle (waiting g1)). reflexivity.
  - exact Hperm.
  - exact Hperm.
  - exact Hperm.
  - intros _. split; reflexivity.
Qed.

Lemma pool_inv_rtc c p : rtc blight.step (blight.pool_init c) p -> pool_inv c p.
Proof.
  revert p. apply rtc_ind_r.
  - apply pool_inv_init.
  - intros p p' _ Hstep IH. eapply pool_inv_step; eassumption.
Qed.

(** When [wg.Wait()] has returned every pair has had its call. *)
Lemma pool_run_calls c p : blight.pool_run c p -> blight.calls p ≡ₚ c.
Proof.
  intros [Hrun Hr].
  destruct (pool_inv_rtc c p Hrun) as (Hperm & Hwg & _ & Hret).
  destruct (Hret Hr) as [Hc Hw]. rewrite Hc, app_nil_r in Hperm.
  rewrite undone_0_waiting, app_nil_r in Hperm by congruence.
  exact Hperm.
Qed.

(** The schedule that lets each goroutine finish before the next
    one starts. *)
Lemma pool_drain c : forall t cs,
  (t < blight.pool_size)%nat ->
  rtc blight.step (blight.mkPool c (S t) 0 [] cs false)
                  (blight.mkPool [] (S t) 0 [] (cs ++ c) false).
Proof.
  induction c as [|kv c IH]; intros t cs Ht.
  - rewrite app_nil_r. constructor.
  - eapply rtc_l; [apply blight.step_spawn|].
    eapply rtc_l; [apply (blight.step_fn kv c t 1 [] [])|].
    eapply rtc_l; [apply (blight.step_done kv c t 0 [] [])|].
    eapply rtc_l; [apply (blight.step_send kv c t 0 [] []); exact Ht|].
    simpl. replace (cs ++ kv :: c) with ((cs ++ [kv]) ++ c)
      by now rewrite <- app_assoc.
    now apply IH.
Qed.

Lemma pool_run_exists c : exists p, blight.pool_run c p /\ blight.calls p = c.
Proof.
  exists (blight.mkPool [] blight.pool_size 0 [] c true). split; [split|];
    try reflexivity.
  eapply rtc_r; [|apply blight.step_wait].
  apply (pool_drain c 29 []). unfold blight.pool_size. lia.
Qed.

(** No run is stuck before [wg.Wait()] returns. *)
Lemma pool_progress c p :
  rtc blight.step (blight.pool_init c) p ->
  blight.returned p = false -> exists p', blight.step p p'.
Proof.
  intros Hrun Hr.
  destruct (pool_inv_rtc c p Hrun) as (_ & Hwg & Htok & _).
  destruct p as [cur t w gs cs r]. simpl in *. subst r.
  destruct gs as [|[kv st] gs].
  - simpl in *. subst w. destruct cur as [|kv cur].
    + eexists. apply blight.step_wait.
    + destruct t as [|t]; [unfold blight.pool_size in Htok; lia|].
      eexists. apply blight.step_spawn.
  - destruct st.
    + eexists. apply (blight.step_fn kv cur t w [] gs).
    + simpl in Hwg. subst w.
      eexists. apply (blight.step_done kv cur t _ [] gs).
    + eexists. apply (blight.step_send kv cur t w [] gs).
      simpl in Htok. lia.
Qed.

(** Every step uses up one unit of the measure: a run has at most
    [4 * length c + 1] steps. *)
Lemma pool_step_measure p p' :
  blight.step p p' -> pool_measure p = S (pool_measure p').
Proof.
  intros Hstep. destruct Hstep; unfold pool_measure;
    cbn [blight.cursor blight.goroutines blight.returned];
    rewrite ?sum_list_with_app; simpl; try destruct r; lia.
Qed.

(** The order of the calls is the scheduler's: two pairs can have
    their calls in descending key order. *)
Lemma pool_run_out_of_order kv1 kv2 :
  exists p, blight.pool_run [kv1; kv2] p /\ blight.calls p = [kv2; kv1].
Proof.
  exists (blight.mkPool [] 28 0 [(kv1, blight.AtSend); (kv2, blight.AtSend)]
            [kv2; kv1] true).
  split; [split|]; try reflexivity.
  eapply rtc_l; [apply blight.step_spawn|].
  eapply rtc_l; [apply blight.step_spawn|].
  eapply rtc_l; [apply (blight.step_fn kv2 [] 28 2 [(kv1, blight.AtFn)] [])|].
  eapply rtc_l; [apply (blight.step_fn kv1 [] 28 2 [] [(kv2, blight.AtDone)])|].
  eapply rtc_l; [apply (blight.step_done kv1 [] 28 1 [] [(kv2, blight.AtDone)])|].
  eapply rtc_l;
    [apply (blight.step_done kv2 [] 28 0 [(kv1, blight.AtSend)] [])|].
  eapply rtc_l; [apply blight.step_wait|].
  constructor.
Qed.

End Pool.

(** A run of [n] steps has used up [n] units: no run of the pool over
    [c] has more than [4 * length c + 1] steps, so [AllFunc] returns. *)
Lemma pool_nsteps_measure n p q :
  nsteps blight.step n p q -> pool_measure p = (n + pool_measure q)%nat.
Proof.
  induction 1 as [|n p p' q Hstep _ IH]; [reflexivity|].
  rewrite (pool_step_measure _ _ Hstep), IH. lia.
Qed.

Lemma pool_run_bound c n p :
  nsteps blight.step n (blight.pool_init c) p -> (n <= 4 * length c + 1)%nat.
Proof.
  intros H. apply pool_nsteps_measure in H.
  unfold pool_measure in H at 1. simpl in H. lia.
Qed.

(** ** AllFunc *)

(** C9.  On a bucket that exists, the cursor goes over each pair of
    the bucket once, in strictly ascending key order.  The sequential
    [AllFunc] calls [fn] on these pairs in that order and returns no
    error.  The [AllFunc] with the pool of goroutines can always go on
    until [wg.Wait()] returns, does return no error, and whatever the
    schedule the calls of [fn] it made are a permutation of the
    bucket's pairs: as many calls as pairs, one for each.  On a bucket
    that does not exist both fail with the bucket-not-found error
    without a call of [fn]. *)
Theorem AllFunc_visits (db : gmap string Bucket) (B : string) :
  (forall bk, db !! B = Some bk ->
     length (bolt.items bk) = size (pairs bk) /\
     (forall k v, (k, v) ∈ bolt.items bk <-> pairs bk !! k = Some v) /\
     NoDup (bolt.items bk).*1 /\
     StronglySorted bytes_lt (bolt.items bk).*1 /\
     (forall (S : Type) (fn : string -> string -> S -> S) (s : S),
        part_000.AllFunc B fn s db
          = (Ok (part_000.cursor_for (bolt.items bk) fn s), db)) /\
     part_000.AllFunc B part_000.record_call [] db = (Ok (bolt.items bk), db) /\
     (exists cs, blight.AllFunc B db (Ok tt, db) cs) /\
     (forall p, rtc blight.step (blight.pool_init (bolt.items bk)) p ->
        blight.returned p = false -> exists p', blight.step p p') /\
     (forall r cs, blight.AllFunc B db r cs ->
        r = (Ok tt, db) /\ cs ≡ₚ bolt.items bk /\ length cs = size (pairs bk))) /\
  (db !! B = None ->
     (forall (S : Type) (fn : string -> string -> S -> S) (s : S),
        part_000.AllFunc B fn s db = (Err (BucketNotFoundError B), db)) /\
     blight.AllFunc B db (Err (BucketNotFoundError B), db) [] /\
     (forall r cs, blight.AllFunc B db r cs ->
        r = (Err (BucketNotFoundError B), db) /\ cs = [])).
Proof.
  split.
  - intros bk Hb. split; [apply items_length|].
    split; [apply items_elem_of|].
    split; [apply items_NoDup_keys|].
    split; [apply items_sorted|].
    split; [intros S fn s; now apply AllFunc_seq_found|].
    split.
    { rewrite (AllFunc_seq_found _ _ _ _ _ Hb). now rewrite cursor_for_record. }
    split.
    { destruct (pool_run_exists (bolt.items bk)) as (p & Hrun & _).
      exists (blight.calls p). eapply blight.AllFunc_nil; eassumption. }
    split; [apply pool_progress|].
    intros r cs Hrun. destruct Hrun as [Hnone|bk' p Hb' Hrun]; [congruence|].
    assert (bk' = bk) as -> by congruence.
    apply pool_run_calls in Hrun.
    split; [reflexivity|]. split; [exact Hrun|].
    rewrite Hrun. apply items_length.
  - intros Hb. split; [intros S fn s; now apply AllFunc_seq_not_found|].
    split; [now constructor|].
    intros r cs Hrun. destruct Hrun as [Hnone|bk' p Hb' Hrun]; [|congruence].
    split; reflexivity.
Qed.

Lemma AllFunc_visits_witness :
  part_000.AllFunc "users" part_000.record_call []
      {["users" := mkBucket (<["bob" := "7"]> {["alice" := "42"]}) 0]}
    = (Ok [("alice", "42"); ("bob", "7")],
       {["users" := mkBucket (<["bob" := "7"]> {["alice" := "42"]}) 0]}) /\
  part_000.AllFunc "users" part_000.record_call [] ∅
    = (Err (BucketNotFoundError "users"), ∅).
Proof.
  split.
  - pose proof (AllFunc_visits
                  {["users" := mkBucket (<["bob" := "7"]> {["alice" := "42"]}) 0]}
                  "users") as [H _].
    destruct (H (mkBucket (<["bob" := "7"]> {["alice" := "42"]}) 0))
      as (_ & _ & _ & _ & _ & -> & _); [apply lookup_singleton_eq|].
    vm_compute. reflexivity.
  - apply (AllFunc_visits ∅ "users"). apply lookup_empty.
Defined.

(** ** Further properties of the helpers *)

(** *** itob *)

(** X1.  On 64-bit values [itob] is the 8-byte big-endian encoding:
    reading the bytes back gives the value, byte-wise comparison of two
    encodings is the comparison of the values, so distinct values have
    distinct keys; bits above the 64th do not reach the key. *)
Theorem itob_big_endian (a b : Z) :
  0 <= a < uint64_modulus -> 0 <= b < uint64_modulus ->
  String.length (itob a) = 8%nat /\
  be_value 0 (itob a) = a /\
  bytes_compare (itob a) (itob b) = (a ?= b) /\
  (itob a = itob b -> a = b) /\
  itob (a + uint64_modulus) = itob a.
Proof.
  intros Ha Hb. split; [reflexivity|]. split; [|split; [|split]].
  - rewrite be_value_itob. now apply uint64_small.
  - rewrite bytes_compare_itob. now rewrite !uint64_small.
  - intros H. apply itob_inj in H. now rewrite !uint64_small in H.
  - unfold itob, uint64. f_equal.
    rewrite <- (Z.mul_1_l uint64_modulus) at 1.
    apply Z.mod_add. discriminate.
Qed.

Lemma itob_big_endian_witness :
  String.length (itob 258) = 8%nat /\
  be_value 0 (itob 258) = 258 /\
  bytes_compare (itob 258) (itob 65536) = (258 ?= 65536) /\
  (itob 258 = itob 65536 -> 258 = 65536) /\
  itob (258 + uint64_modulus) = itob 258.
Proof.
  apply (itob_big_endian 258 65536); unfold uint64_modulus; lia.
Defined.

(** *** Set *)

Lemma put_error_None_inv K V :
  put_error K V = None ->
  K <> "" /\ len K <= bolt.MaxKeySize /\ len V <= bolt.MaxValueSize.
Proof.
  unfold put_error.
  destruct (len K =? 0) eqn:E0; [discriminate|].
  destruct (Z.gtb_spec (len K) bolt.MaxKeySize); [discriminate|].
  destruct (Z.gtb_spec (len V) bolt.MaxValueSize); [discriminate|].
  intros _. repeat split; try lia.
  intros ->. discriminate.
Qed.

(** [Set] succeeds with its one insertion, or fails the same way on
    every store and changes nothing. *)
Lemma Set_cases B K V :
  (B <> "" /\ put_error K V = None /\
   forall db, blight.Set_ B K V db
              = (Ok tt, <[B := put_pair K V (bucket_of db B)]> db)) \/
  (exists e, forall db, blight.Set_ B K V db = (Err e, db)).
Proof.
  destruct (decide (B = "")) as [->|HB].
  - right. exists ErrBucketNameRequired. intros db. apply Set_blank.
  - destruct (put_error K V) as [e|] eqn:He.
    + right. exists e. intros db. now apply Set_Err.
    + left. repeat split; try assumption. intros db. now apply Set_Ok.
Qed.

(** X2.  What [Set] returns, case by case: the engine's error for an
    empty bucket name, then for an empty key, a key above [MaxKeySize],
    a value above [MaxValueSize], in this order, each time with the
    store as it was; otherwise no error, and the store with the pair in
    the bucket, which is created empty with sequence 0 when it was not
    there.  The sibling [Set] returns the same. *)
Theorem Set_result (db : gmap string Bucket) (B K V : string) :
  blight.Set_ B K V db =
    (if decide (B = "") then (Err ErrBucketNameRequired, db)
     else if decide (K = "") then (Err ErrKeyRequired, db)
     else if len K >? bolt.MaxKeySize then (Err ErrKeyTooLarge, db)
     else if len V >? bolt.MaxValueSize then (Err ErrValueTooLarge, db)
     else (Ok tt, <[B := put_pair K V (bucket_of db B)]> db)) /\
  part_000.Set_ B K V db = blight.Set_ B K V db.
Proof.
  split; [|symmetry; apply Set_same].
  destruct (decide (B = "")) as [->|HB]; [apply Set_blank|].
  destruct (decide (K = "")) as [->|HK]; [now apply Set_Err|].
  destruct (len K >? bolt.MaxKeySize) eqn:E1.
  { apply Set_Err; [exact HB|]. unfold put_error.
    now rewrite (len_not_0 K HK), E1. }
  destruct (len V >? bolt.MaxValueSize) eqn:E2.
  { apply Set_Err; [exact HB|]. unfold put_error.
    now rewrite (len_not_0 K HK), E1, E2. }
  apply Set_Ok; [exact HB|]. unfold put_error.
  now rewrite (len_not_0 K HK), E1, E2.
Qed.



(** X4.  Two [Set]s to different keys, or to different buckets, leave
    the same store in either order. *)
Theorem Set_commutes (db : gmap string Bucket) (B1 K1 V1 B2 K2 V2 : string) :
  B1 <> B2 \/ K1 <> K2 ->
  (blight.Set_ B2 K2 V2 (blight.Set_ B1 K1 V1 db).2).2
  = (blight.Set_ B1 K1 V1 (blight.Set_ B2 K2 V2 db).2).2.
Proof.
  intros Hne.
  destruct (Set_cases B1 K1 V1) as [(_ & _ & E1)|[e1 E1]];
    destruct (Set_cases B2 K2 V2) as [(_ & _ & E2)|[e2 E2]];
    rewrite ?E1, ?E2; cbn [snd]; rewrite ?E1, ?E2; cbn [snd]; try reflexivity.
  destruct (decide (B1 = B2)) as [<-|HB].
  - destruct Hne as [Hne|HK]; [now destruct Hne|].
    rewrite !bucket_of_insert, !insert_insert_eq.
    unfold put_pair. cbn [pairs sequence]. f_equal. f_equal.
    now apply insert_insert_ne.
  - unfold bucket_of. rewrite !lookup_insert_ne by congruence.
    now apply insert_insert_ne.
Qed.

Lemma Set_commutes_witness :
  (blight.Set_ "users" "bob" "7" (blight.Set_ "users" "alice" "42" ∅).2).2
  = (blight.Set_ "users" "alice" "42" (blight.Set_ "users" "bob" "7" ∅).2).2.
Proof.
  apply (Set_commutes ∅ "users" "alice" "42" "users" "bob" "7").
  right. discriminate.
Defined.

(** *** Failed writes *)

(** X5.  A write helper that does not return nil has changed nothing:
    the transaction was rolled back, so that a [Set] or an [Append]
    that [Put] refused has not left behind the bucket it had created
    in that transaction, and a [ResetBucket] that failed has not
    deleted. *)
Theorem failed_write_changes_nothing {Value : Type}
    (Marshal : Value -> string + string)
    (db : gmap string Bucket) (B K V : string) (v : Value) :
  ((blight.Set_ B K V db).1 <> Ok tt -> (blight.Set_ B K V db).2 = db) /\
  ((part_000.Set_ B K V db).1 <> Ok tt -> (part_000.Set_ B K V db).2 = db) /\
  ((blight.Append B V db).1 <> Ok tt -> (blight.Append B V db).2 = db) /\
  ((part_000.Append B V db).1 <> Ok tt -> (part_000.Append B V db).2 = db) /\
  ((blight.Delete B K db).1 <> Ok tt -> (blight.Delete B K db).2 = db) /\
  ((blight.ResetBucket B db).1 <> Ok tt -> (blight.ResetBucket B db).2 = db) /\
  ((blight.CreateBucket B db).1 <> Ok tt -> (blight.CreateBucket B db).2 = db) /\
  ((blight.DeleteBucket B db).1 <> Ok tt -> (blight.DeleteBucket B db).2 = db) /\
  ((blight.SetJSON Marshal B K v db).1 <> Ok tt ->
     (blight.SetJSON Marshal B K v db).2 = db) /\
  ((blight.AppendJSON Marshal B v db).1 <> Ok tt ->
     (blight.AppendJSON Marshal B v db).2 = db).
Proof.
  repeat split;
    try apply Batch_failed; try apply Update_failed.
  - unfold blight.SetJSON. destruct (Marshal v); [apply Batch_failed|reflexivity].
  - unfold blight.AppendJSON. destruct (Marshal v); [apply Batch_failed|reflexivity].
Qed.

Lemma failed_write_changes_nothing_witness :
  (blight.Set_ "users" "" "42" {["posts" := new_bucket]}).2 = {["posts" := new_bucket]} /\
  (blight.ResetBucket "users" {["posts" := new_bucket]}).2 = {["posts" := new_bucket]}.
Proof.
  pose proof (failed_write_changes_nothing bool_Marshal {["posts" := new_bucket]}
                "users" "" "42" true) as (H1 & _ & _ & _ & _ & H2 & _).
  split.
  - apply H1. vm_compute. discriminate.
  - apply H2. vm_compute. discriminate.
Defined.

(** *** Set and Delete *)

(** X6.  [Delete] undoes [Set]: after a successful [Set] the [Delete]
    of the key succeeds and [Get] finds nothing under it; every other
    key of the bucket reads as before the two calls, and when the
    bucket existed without the key the store is exactly what it was.
    A second [Delete] returns what the first returned and changes
    nothing more. *)
Theorem Set_then_Delete (db : gmap string Bucket) (B K V : string) :
  (B <> "" -> K <> "" ->
   len K <= bolt.MaxKeySize -> len V <= bolt.MaxValueSize ->
   exists db1 db2,
     blight.Set_ B K V db = (Ok tt, db1) /\
     blight.Delete B K db1 = (Ok tt, db2) /\
     blight.Get B K db2 = (Ok None, db2) /\
     (forall K', K' <> K -> value_at db2 B K' = value_at db B K') /\
     (forall b, db !! B = Some b -> pairs b !! K = None -> db2 = db)) /\
  blight.Delete B K (blight.Delete B K db).2 = blight.Delete B K db.
Proof.
  split.
  - intros HB HK Hk Hv.
    pose proof (put_error_None K V HK Hk Hv) as He.
    set (db1 := <[B := put_pair K V (bucket_of db B)]> db).
    set (b2 := mkBucket (delete K (pairs (put_pair K V (bucket_of db B))))
                        (sequence (put_pair K V (bucket_of db B)))).
    exists db1, (<[B := b2]> db1).
    assert (pairs b2 = delete K (pairs (bucket_of db B))) as Hp
      by (unfold b2; cbn [put_pair pairs]; apply delete_insert_eq).
    repeat split.
    + now apply Set_Ok.
    + apply Delete_found, lookup_insert_eq.
    + erewrite Get_found by apply lookup_insert_eq.
      now rewrite Hp, lookup_delete_eq.
    + intros K' HK'. rewrite value_at_insert, Hp.
      rewrite lookup_delete_ne by congruence. apply value_at_bucket_of.
    + intros b Hb HKb. unfold db1. rewrite insert_insert_eq.
      apply insert_id. rewrite Hb. f_equal.
      assert (bucket_of db B = b) as Eb by (unfold bucket_of; now rewrite Hb).
      unfold b2. cbn [put_pair pairs sequence]. rewrite Eb.
      rewrite delete_insert_eq, delete_id by exact HKb. now destruct b.
  - destruct (db !! B) as [b|] eqn:Hb.
    + rewrite (Delete_found B K db b Hb). cbn [snd].
      erewrite Delete_found by apply lookup_insert_eq.
      cbn [pairs sequence]. now rewrite delete_delete_eq, insert_insert_eq.
    + rewrite (Delete_not_found B K db Hb). cbn [snd].
      now apply Delete_not_found.
Qed.

Lemma Set_then_Delete_witness :
  exists db1 db2,
    blight.Set_ "users" "alice" "42" {["users" := new_bucket]} = (Ok tt, db1) /\
    blight.Delete "users" "alice" db1 = (Ok tt, db2) /\
    blight.Get "users" "alice" db2 = (Ok None, db2) /\
    (forall K', K' <> "alice" ->
       value_at db2 "users" K' = value_at {["users" := new_bucket]} "users" K') /\
    (forall b, ({["users" := new_bucket]} : gmap string Bucket) !! "users" = Some b ->
       pairs b !! "alice" = None -> db2 = {["users" := new_bucket]}).
Proof.
  apply (Set_then_Delete {["users" := new_bucket]} "users" "alice" "42");
    [discriminate | discriminate | vm_compute; discriminate | vm_compute; discriminate].
Defined.

(** *** The string helpers *)




(** *** Append with Delete and ResetBucket *)



(** X9.  [ResetBucket] starts the sequence again: on a bucket that
    exists it leaves what [DeleteBucket] followed by [CreateBucket]
    leaves, a bucket without pairs with sequence 0, so that the next
    [Append] puts its value under the key of 1, alone in the bucket,
    whatever keys had been handed out before. *)
Theorem ResetBucket_restarts (db : gmap string Bucket) (B V : string) (b : Bucket) :
  B <> "" -> db !! B = Some b -> len V <= bolt.MaxValueSize ->
  exists db1 db2,
    blight.ResetBucket B db = (Ok tt, db1) /\
    blight.DB_ResetBucket B db = (Ok tt, db1) /\
    db1 = (blight.CreateBucket B (blight.DeleteBucket B db).2).2 /\
    blight.Append B V db1 = (Ok tt, db2) /\
    db2 !! B = Some (mkBucket {[itob 1 := V]} 1).
Proof.
  intros HB Hb HV.
  exists (<[B := new_bucket]> db),
         (<[B := append_pair V new_bucket]> (<[B := new_bucket]> db)).
  repeat split.
  - eapply ResetBucket_found; eassumption.
  - eapply ResetBucket_found; eassumption.
  - rewrite (DeleteBucket_found B db b Hb). cbn [snd].
    rewrite (CreateBucket_run B _ HB). cbn [snd].
    unfold bucket_of. rewrite lookup_delete_eq. cbn [default from_option].
    now rewrite insert_delete_eq.
  - pose proof (Append_Ok B V (<[B := new_bucket]> db) HB HV) as E.
    rewrite bucket_of_insert in E. exact E.
  - rewrite lookup_insert_eq. reflexivity.
Qed.

Lemma ResetBucket_restarts_witness :
  exists db1 db2,
    blight.ResetBucket "log" {["log" := mkBucket {[itob 9 := "old"]} 9]} = (Ok tt, db1) /\
    blight.DB_ResetBucket "log" {["log" := mkBucket {[itob 9 := "old"]} 9]}
      = (Ok tt, db1) /\
    db1 = (blight.CreateBucket "log"
             (blight.DeleteBucket "log"
                {["log" := mkBucket {[itob 9 := "old"]} 9]}).2).2 /\
    blight.Append "log" "new" db1 = (Ok tt, db2) /\
    db2 !! "log" = Some (mkBucket {[itob 1 := "new"]} 1).
Proof.
  apply (ResetBucket_restarts {["log" := mkBucket {[itob 9 := "old"]} 9]}
           "log" "new" (mkBucket {[itob 9 := "old"]} 9));
    [discriminate | apply lookup_singleton_eq | vm_compute; discriminate].
Defined.

(** *** Append and AllFunc *)





(** *** AppendJSON and SetJSONBatch *)

(** X11.  [AppendJSON] gives back the json package's error for a value
    that cannot be encoded, with nothing appended; otherwise, for a
    bucket name that is not empty and an encoding of at most
    [MaxValueSize] bytes, it succeeds, moves the sequence by one, and
    [GetJSON] under the 8-byte key of the new sequence yields the
    value, provided its encoding decodes back to it. *)
Theorem AppendJSON_then_GetJSON {Value : Type}
    (Marshal : Value -> string + string) (Unmarshal : string -> Value + string)
    (db : gmap string Bucket) (B : string) (v : Value) :
  (forall msg, Marshal v = inr msg ->
     blight.AppendJSON Marshal B v db = (Err (SerializationError msg), db)) /\
  (forall j, Marshal v = inl j -> Unmarshal j = inl v ->
     B <> "" -> len j <= bolt.MaxValueSize ->
     exists db',
       blight.AppendJSON Marshal B v db = (Ok tt, db') /\
       sequence (bucket_of db' B) = uint64 (sequence (bucket_of db B) + 1) /\
       blight.GetJSON Unmarshal B (itob (sequence (bucket_of db' B))) db'
         = (Ok v, db')).
Proof.
  split.
  - intros msg Hj. unfold blight.AppendJSON. now rewrite Hj.
  - intros j Hj Hrt HB Hv.
    exists (<[B := append_pair j (bucket_of db B)]> db).
    rewrite bucket_of_insert. repeat split.
    + unfold blight.AppendJSON. rewrite Hj. now apply Append_Ok.
    + erewrite GetJSON_found by apply lookup_insert_eq.
      cbn [append_pair pairs sequence]. rewrite lookup_insert_eq. simpl.
      now rewrite Hrt.
Qed.

Lemma AppendJSON_then_GetJSON_witness :
  exists db',
    blight.AppendJSON bool_Marshal "flags" true ∅ = (Ok tt, db') /\
    sequence (bucket_of db' "flags") = uint64 (sequence (bucket_of ∅ "flags") + 1) /\
    blight.GetJSON bool_Unmarshal "flags" (itob (sequence (bucket_of db' "flags"))) db'
      = (Ok true, db').
Proof.
  apply (AppendJSON_then_GetJSON bool_Marshal bool_Unmarshal ∅ "flags" true)
    with "true";
    [reflexivity | reflexivity | discriminate | vm_compute; discriminate].
Defined.

(** X12.  [SetJSONBatch] never creates a bucket: whatever its outcome,
    the store has the buckets it had; on a bucket that does not exist
    it writes nothing, where [SetJSON] creates the bucket and stores
    the pair; on a bucket that exists, with a key and an encoding that
    [Put] accepts, it leaves the store [SetJSON] leaves. *)
Theorem SetJSONBatch_no_new_bucket {Value : Type}
    (Marshal : Value -> string + string)
    (db : gmap string Bucket) (B K : string) (v : Value) :
  dom (blight.SetJSONBatch Marshal B K v db).2 = dom db /\
  (db !! B = None -> (blight.SetJSONBatch Marshal B K v db).2 = db) /\
  (forall j, db !! B = None -> Marshal v = inl j ->
     B <> "" -> put_error K j = None ->
     (blight.SetJSON Marshal B K v db).2 !! B = Some (put_pair K j new_bucket)) /\
  (forall j b, db !! B = Some b -> Marshal v = inl j ->
     B <> "" -> put_error K j = None ->
     blight.SetJSONBatch Marshal B K v db
       = ((Ok tt, []), (blight.SetJSON Marshal B K v db).2)).
Proof.
  assert (db !! B = None -> (blight.SetJSONBatch Marshal B K v db).2 = db) as Hnone.
  { intros Hb. destruct (Marshal v) as [j|msg] eqn:Hj.
    - now rewrite (SetJSONBatch_nil Marshal B K v db j Hj Hb).
    - now rewrite (SetJSONBatch_not_encoded Marshal B K v db msg Hj). }
  split; [|split; [exact Hnone|split]].
  - destruct (db !! B) as [b|] eqn:Hb; [|now rewrite Hnone].
    destruct (Marshal v) as [j|msg] eqn:Hj;
      [|now rewrite (SetJSONBatch_not_encoded Marshal B K v db msg Hj)].
    destruct (put_error K j) as [e|] eqn:He.
    + now rewrite (SetJSONBatch_Fatal Marshal B K v db j b e Hj Hb He).
    + rewrite (SetJSONBatch_Ok Marshal B K v db j b Hj Hb He). cbn [snd].
      apply dom_insert_lookup_L. eauto.
  - intros j Hb Hj HB He.
    rewrite (SetJSON_encoded Marshal B K v db j Hj), (Set_Ok B K j db HB He).
    cbn [snd]. rewrite lookup_insert_eq. unfold bucket_of. now rewrite Hb.
  - intros j b Hb Hj HB He.
    rewrite (SetJSONBatch_Ok Marshal B K v db j b Hj Hb He).
    rewrite (SetJSON_encoded Marshal B K v db j Hj), (Set_Ok B K j db HB He).
    cbn [snd]. unfold bucket_of. now rewrite Hb.
Qed.

Lemma SetJSONBatch_no_new_bucket_witness :
  (blight.SetJSONBatch bool_Marshal "flags" "debug" true ∅).2 = ∅ /\
  (blight.SetJSON bool_Marshal "flags" "debug" true ∅).2 !! "flags"
    = Some (put_pair "debug" "true" new_bucket) /\
  blight.SetJSONBatch bool_Marshal "flags" "debug" true {["flags" := new_bucket]}
    = ((Ok tt, []),
       (blight.SetJSON bool_Marshal "flags" "debug" true {["flags" := new_bucket]}).2).
Proof.
  split; [|split].
  - apply (SetJSONBatch_no_new_bucket bool_Marshal ∅ "flags" "debug" true).
    apply lookup_empty.
  - pose proof (SetJSONBatch_no_new_bucket bool_Marshal ∅ "flags" "debug" true)
      as (_ & _ & H & _).
    apply (H "true"); [apply lookup_empty | reflexivity | discriminate | reflexivity].
  - pose proof (SetJSONBatch_no_new_bucket bool_Marshal {["flags" := new_bucket]}
                  "flags" "debug" true) as (_ & _ & _ & H).
    apply (H "true" new_bucket);
      [apply lookup_singleton_eq | reflexivity | discriminate | reflexivity].
Defined.

(** *** The pool of AllFunc *)

Lemma waiting_length (gs : list ((string * string) * blight.stage)) :
  (length (waiting gs) <= length gs)%nat.
Proof.
  induction gs as [|[kv []] gs IH]; simpl; lia.
Qed.

(** X13.  The pool keeps its bound and its operations never go wrong.
    At every point of every run, the goroutines that have been started
    and have not given their token back yet are at most 30, and so are
    the calls of [fn] that are pending or in progress; a goroutine
    about to call [wg.Done()] finds the counter above zero, and a
    goroutine about to give its token back finds room in the
    channel. *)
Theorem pool_bounded (c : list (string * string)) (p : blight.pool) :
  rtc blight.step (blight.pool_init c) p ->
  (length (blight.goroutines p) <= 30)%nat /\
  (length (waiting (blight.goroutines p)) <= 30)%nat /\
  (forall kv, (kv, blight.AtDone) ∈ blight.goroutines p -> (0 < blight.wg p)%nat) /\
  (forall kv, (kv, blight.AtSend) ∈ blight.goroutines p ->
     (blight.tokens p < blight.pool_size)%nat).
Proof.
  intros Hrun. destruct (pool_inv_rtc c p Hrun) as (_ & Hwg & Htok & _).
  assert (length (blight.goroutines p) <= 30)%nat as Hlen
    by (unfold blight.pool_size in Htok; lia).
  split; [exact Hlen|]. split.
  { pose proof (waiting_length (blight.goroutines p)). lia. }
  split.
  - intros kv Hin. rewrite Hwg.
    apply list_elem_of_split in Hin as (g1 & g2 & ->).
    rewrite undone_app. simpl. lia.
  - intros kv Hin.
    apply list_elem_of_split in Hin as (g1 & g2 & E).
    rewrite E, length_app in Htok. simpl in Htok. lia.
Qed.

Lemma pool_bounded_witness :
  (length (blight.goroutines
             (blight.mkPool [("b", "2")] 29 1 [(("a", "1"), blight.AtFn)] [] false))
   <= 30)%nat.
Proof.
  apply (pool_bounded [("a", "1"); ("b", "2")]
           (blight.mkPool [("b", "2")] 29 1 [(("a", "1"), blight.AtFn)] [] false)).
  apply rtc_once. apply (blight.step_spawn ("a", "1") [("b", "2")] 29 0 [] []).
Defined.

(** X14.  Every schedule ends, and ends well: a run over [N] pairs has
    at most [4 * N + 1] steps, and when nothing can move any more
    [wg.Wait()] has returned, the cursor is exhausted, every goroutine
    has ended, all 30 tokens are back in the channel, and the calls
    of [fn] made are a permutation of the pairs. *)
Theorem pool_quiescent_final (c : list (string * string)) (n : nat) (p : blight.pool) :
  nsteps blight.step n (blight.pool_init c) p ->
  (n <= 4 * length c + 1)%nat /\
  (pool_quiescent p ->
     blight.returned p = true /\ blight.cursor p = [] /\
     blight.goroutines p = [] /\ blight.tokens p = blight.pool_size /\
     blight.wg p = 0%nat /\ blight.calls p ≡ₚ c).
Proof.
  intros Hn. split; [eapply pool_run_bound, Hn|].
  intros Hq.
  assert (rtc blight.step (blight.pool_init c) p) as Hrun by (eapply rtc_nsteps_2, Hn).
  destruct (blight.returned p) eqn:Hr.
  - destruct (pool_inv_rtc c p Hrun) as (Hperm & Hwg & Htok & Hret).
    destruct (Hret Hr) as [Hc Hw].
    destruct p as [cur t w gs cs r]. simpl in *. subst cur r.
    destruct gs as [|[kv st] gs].
    + simpl in *. repeat split; try lia.
      now rewrite !app_nil_r in Hperm.
    + exfalso. destruct st; simpl in Hwg; try lia.
      eapply Hq. apply (blight.step_send kv [] t w [] gs). simpl in Htok. lia.
  - exfalso. destruct (pool_progress c p Hrun Hr) as [p' Hstep].
    eapply Hq, Hstep.
Qed.

Lemma pool_quiescent_final_witness :
  (5 <= 4 * length [("a", "1")] + 1)%nat /\
  blight.returned (blight.mkPool [] 30 0 [] [("a", "1")] true) = true /\
  blight.cursor (blight.mkPool [] 30 0 [] [("a", "1")] true) = [] /\
  blight.goroutines (blight.mkPool [] 30 0 [] [("a", "1")] true) = [] /\
  blight.tokens (blight.mkPool [] 30 0 [] [("a", "1")] true) = blight.pool_size /\
  blight.wg (blight.mkPool [] 30 0 [] [("a", "1")] true) = 0%nat /\
  blight.calls (blight.mkPool [] 30 0 [] [("a", "1")] true) ≡ₚ [("a", "1")].
Proof.
  destruct (pool_quiescent_final [("a", "1")] 5
              (blight.mkPool [] 30 0 [] [("a", "1")] true)) as [Hn Hq].
  - eapply nsteps_l; [apply blight.step_spawn|].
    eapply nsteps_l; [apply (blight.step_fn ("a", "1") [] 29 1 [] [])|].
    eapply nsteps_l; [apply (blight.step_done ("a", "1") [] 29 0 [] [])|].
    eapply nsteps_l;
      [apply (blight.step_send ("a", "1") [] 29 0 [] []); unfold blight.pool_size; lia|].
    eapply nsteps_l; [apply blight.step_wait|].
    apply nsteps_O.
  - split; [exact Hn|]. apply Hq.
    intros p' Hstep. inversion Hstep as
      [ | ? ? ? ? g1 ? ? ? E | ? ? ? ? g1 ? ? ? E | ? ? ? ? g1 ? ? ? ? E | ];
      destruct g1; discriminate.
Defined.

(** *** What the helpers keep *)

Section WellFormed.

Implicit Types (db : gmap string Bucket) (B K V : string) (b : Bucket).

Lemma wf_new_bucket : wf_bucket new_bucket.
Proof.
  split; [unfold uint64_modulus; simpl; lia|].
  intros k v H. unfold new_bucket in H. cbn [pairs] in H.
  now rewrite lookup_empty in H.
Qed.

Lemma wf_store_empty : wf_store ∅.
Proof. intros B b H. now rewrite lookup_empty in H. Qed.

Lemma wf_store_insert db B b :
  wf_store db -> B <> "" -> wf_bucket b -> wf_store (<[B := b]> db).
Proof.
  intros Hdb HB Hb B' b'. destruct (decide (B = B')) as [<-|Hne].
  - rewrite lookup_insert_eq. now intros [= <-].
  - rewrite lookup_insert_ne by exact Hne. apply Hdb.
Qed.

Lemma wf_store_delete db B : wf_store db -> wf_store (delete B db).
Proof.
  intros Hdb B' b'. destruct (decide (B = B')) as [<-|Hne].
  - now rewrite lookup_delete_eq.
  - rewrite lookup_delete_ne by exact Hne. apply Hdb.
Qed.

Lemma wf_bucket_of db B : wf_store db -> wf_bucket (bucket_of db B).
Proof.
  intros Hdb. unfold bucket_of. destruct (db !! B) as [b|] eqn:Hb.
  - apply (Hdb B b Hb).
  - apply wf_new_bucket.
Qed.

Lemma wf_put_pair K V b :
  put_error K V = None -> wf_bucket b -> wf_bucket (put_pair K V b).
Proof.
  intros He [Hs Hp]. split; [exact Hs|].
  intros k v. cbn [put_pair pairs]. destruct (decide (K = k)) as [<-|Hne].
  - rewrite lookup_insert_eq. intros [= <-]. now apply put_error_None_inv.
  - rewrite lookup_insert_ne by exact Hne. apply Hp.
Qed.

Lemma wf_append_pair V b :
  len V <= bolt.MaxValueSize -> wf_bucket b -> wf_bucket (append_pair V b).
Proof.
  intros HV [Hs Hp]. split; [apply uint64_range|].
  intros k v. cbn [append_pair pairs].
  destruct (decide (itob (uint64 (sequence b + 1)) = k)) as [<-|Hne].
  - rewrite lookup_insert_eq. intros [= <-].
    repeat split; [discriminate | vm_compute; discriminate | exact HV].
  - rewrite lookup_insert_ne by exact Hne. apply Hp.
Qed.

Lemma wf_delete_key K b :
  wf_bucket b -> wf_bucket (mkBucket (delete K (pairs b)) (sequence b)).
Proof.
  intros [Hs Hp]. split; [exact Hs|].
  intros k v. cbn [pairs]. destruct (decide (K = k)) as [<-|Hne].
  - now rewrite lookup_delete_eq.
  - rewrite lookup_delete_ne by exact Hne. apply Hp.
Qed.

Lemma Set_keeps_wf db B K V : wf_store db -> wf_store (blight.Set_ B K V db).2.
Proof.
  intros Hdb. destruct (Set_cases B K V) as [(HB & He & E)|[e E]]; rewrite E;
    [|exact Hdb].
  apply wf_store_insert; [exact Hdb | exact HB |].
  apply wf_put_pair; [exact He | now apply wf_bucket_of].
Qed.

Lemma Append_keeps_wf db B V : wf_store db -> wf_store (blight.Append B V db).2.
Proof.
  intros Hdb. destruct (decide (B = "")) as [->|HB]; [exact Hdb|].
  destruct (Z_le_gt_dec (len V) bolt.MaxValueSize) as [HV|HV].
  - rewrite (Append_Ok B V db HB HV).
    apply wf_store_insert; [exact Hdb | exact HB |].
    apply wf_append_pair; [exact HV | now apply wf_bucket_of].
  - rewrite (Append_Err B V db HB) by lia. exact Hdb.
Qed.

End WellFormed.

(** X15.  The helpers keep the store as the engine wants it: starting
    from a store in which no bucket has the empty name, no key is
    empty, keys and values are within [MaxKeySize] and [MaxValueSize]
    and sequences are 64-bit values (the empty store is one), every
    helper that writes leaves such a store, whatever its arguments and
    whatever it returns. *)
Theorem helpers_keep_wf {Value : Type} (Marshal : Value -> string + string)
    (db : gmap string Bucket) (B K V : string) (v : Value) :
  wf_store db ->
  wf_store (blight.Set_ B K V db).2 /\
  wf_store (part_000.Set_ B K V db).2 /\
  wf_store (blight.Append B V db).2 /\
  wf_store (part_000.Append B V db).2 /\
  wf_store (blight.Delete B K db).2 /\
  wf_store (blight.ResetBucket B db).2 /\
  wf_store (blight.CreateBucket B db).2 /\
  wf_store (blight.DeleteBucket B db).2 /\
  wf_store (blight.SetJSON Marshal B K v db).2 /\
  wf_store (blight.AppendJSON Marshal B v db).2 /\
  wf_store (blight.SetJSONBatch Marshal B K v db).2.
Proof.
  intros Hdb.
  split; [now apply Set_keeps_wf|].
  split; [rewrite <- Set_same; now apply Set_keeps_wf|].
  split; [now apply Append_keeps_wf|].
  split; [rewrite <- Append_same; now apply Append_keeps_wf|].
  split.
  { destruct (db !! B) as [b|] eqn:Hb.
    - rewrite (Delete_found B K db b Hb). destruct (Hdb B b Hb) as [HB Hwf].
      apply wf_store_insert; [exact Hdb | exact HB | now apply wf_delete_key].
    - now rewrite (Delete_not_found B K db Hb). }
  split.
  { destruct (db !! B) as [b|] eqn:Hb.
    - destruct (Hdb B b Hb) as [HB _]. rewrite (ResetBucket_found B db b HB Hb).
      apply wf_store_insert; [exact Hdb | exact HB | apply wf_new_bucket].
    - now destruct (ResetBucket_absent B db Hb) as [e ->]. }
  split.
  { destruct (decide (B = "")) as [->|HB]; [exact Hdb|].
    rewrite (CreateBucket_run B db HB).
    apply wf_store_insert; [exact Hdb | exact HB | now apply wf_bucket_of]. }
  split.
  { destruct (db !! B) as [b|] eqn:Hb.
    - rewrite (DeleteBucket_found B db b Hb). now apply wf_store_delete.
    - now destruct (DeleteBucket_absent_unchanged B db Hb) as [e ->]. }
  split.
  { unfold blight.SetJSON. destruct (Marshal v); [now apply Set_keeps_wf|exact Hdb]. }
  split.
  { unfold blight.AppendJSON.
    destruct (Marshal v); [now apply Append_keeps_wf|exact Hdb]. }
  destruct (Marshal v) as [j|msg] eqn:Hj;
    [|now rewrite (SetJSONBatch_not_encoded Marshal B K v db msg Hj)].
  destruct (db !! B) as [b|] eqn:Hb;
    [|now rewrite (SetJSONBatch_nil Marshal B K v db j Hj Hb)].
  destruct (put_error K j) as [e|] eqn:He.
  - now rewrite (SetJSONBatch_Fatal Marshal B K v db j b e Hj Hb He).
  - rewrite (SetJSONBatch_Ok Marshal B K v db j b Hj Hb He).
    destruct (Hdb B b Hb) as [HB Hwf].
    apply wf_store_insert; [exact Hdb | exact HB | now apply wf_put_pair].
Qed.

Lemma helpers_keep_wf_witness :
  wf_store (blight.Set_ "users" "alice" "42" ∅).2 /\
  wf_store (blight.Append "log" "first" ∅).2.
Proof.
  split.
  - apply (helpers_keep_wf bool_Marshal ∅ "users" "alice" "42" true).
    intros B b H. now rewrite lookup_empty in H.
  - apply (helpers_keep_wf bool_Marshal ∅ "log" "alice" "first" true).
    intros B b H. now rewrite lookup_empty in H.
Defined.

(** *** The life of a bucket *)


